(** * Tic Tac Toe: outcome evaluator and minimax move selector

    A shallow embedding of the game logic of [src/App.js]
    ([WIN_LINES], [getWinnerInfo], [isBoardFull], [availableMoves],
    [scoreTerminal], [minimax], [pickBestAiMove] and the [isDraw] memo of
    the [App] component), followed by the properties the specification
    states about them. *)

From stdpp Require Import base list gmap strings sorting.
From Stdlib Require Import ZArith Lia QArith Qround.

Local Open Scope Z_scope.
Local Open Scope nat_scope.

(** ** Data model *)

(** The two markers, the strings ["X"] and ["O"] of the source. *)
Inductive player : Set := PlayerX | PlayerO.

(** A cell holds [null] (here [None]) or a marker.  Every non-null cell
    value of the source is a non-empty string, hence truthy. *)
Abbreviation cell := (option player) (only parsing).

(** The board is a JavaScript array of cells. *)
Abbreviation board := (list cell) (only parsing).

(** A winning line is a three-element array of indices. *)
Abbreviation winLine := (nat * nat * nat)%type (only parsing).

(** JavaScript numbers as the search uses them: integers and the two
    infinities that initialise the running best. *)
Inductive num : Set :=
| NegInfinity
| Num (z : Z)
| Infinity.

(** The object returned by [getWinnerInfo]. *)
Record winnerInfo : Set := { winner : option player; line : option winLine }.

(** The object returned by [minimax]: a terminal node returns [{ score }]
    only, so its [index] property is absent ([None]). *)
Record searchResult : Set := { score : num; index : option nat }.

(** What [pickBestAiMove] can evaluate to: [null], a cell index, or
    [undefined] (an absent [index] property, or an array read out of
    range). *)
Inductive move : Set :=
| MoveNull
| MoveUndefined
| MoveIndex (i : nat).

(** ** Primitive operations *)

Definition player_eqb (p q : player) : bool :=
  match p, q with
  | PlayerX, PlayerX | PlayerO, PlayerO => true
  | _, _ => false
  end.

#[global] Instance player_eq_dec : EqDecision player.
Proof. solve_decision. Defined.

(** Strict equality [===] on cell values. *)
Definition cell_eqb (c d : cell) : bool :=
  match c, d with
  | Some p, Some q => player_eqb p q
  | None, None => true
  | _, _ => false
  end.

(** JavaScript truthiness of a cell value. *)
Definition truthy (c : cell) : bool :=
  match c with Some _ => true | None => false end.

(** The read [board[i]].  A read out of range yields [undefined], which
    like [null] is falsy and equal to no marker; both are [None] here. *)
Definition cellAt (b : board) (i : nat) : cell := default None (b !! i).

(** The write [next[idx] = v] on a copy of the board.  In range it
    replaces the cell; out of range a JavaScript array grows, the skipped
    positions being holes that read as [undefined]. *)
Definition setCell (b : board) (idx : nat) (v : cell) : board :=
  if idx <? length b then <[idx := v]> b
  else b ++ replicate (idx - length b) None ++ [v].

Definition num_gtb (a b : num) : bool :=
  match a, b with
  | NegInfinity, _ => false
  | Num _, NegInfinity => true
  | Num x, Num y => (y <? x)%Z
  | Num _, Infinity => false
  | Infinity, Infinity => false
  | Infinity, _ => true
  end.

Definition num_ltb (a b : num) : bool := num_gtb b a.

(** ** The evaluator *)

Definition WIN_LINES : list winLine :=
  [ (0, 1, 2); (3, 4, 5); (6, 7, 8);
    (0, 3, 6); (1, 4, 7); (2, 5, 8);
    (0, 4, 8); (2, 4, 6) ].

(** The condition of the [if] in [getWinnerInfo]. *)
Definition lineMatches (b : board) (l : winLine) : bool :=
  let '(a, b', c) := l in
  truthy (cellAt b a)
  && cell_eqb (cellAt b a) (cellAt b b')
  && cell_eqb (cellAt b a) (cellAt b c).

(** The [for ... of] loop of [getWinnerInfo] over a list of lines. *)
Fixpoint scanLines (lines : list winLine) (b : board) : winnerInfo :=
  match lines with
  | [] => {| winner := None; line := None |}
  | l :: rest =>
      if lineMatches b l
      then {| winner := cellAt b (fst (fst l)); line := Some l |}
      else scanLines rest b
  end.

Definition getWinnerInfo (b : board) : winnerInfo := scanLines WIN_LINES b.

Definition isBoardFull (b : board) : bool := forallb truthy b.

Definition availableMoves (b : board) : list nat :=
  filter (fun i => negb (truthy (cellAt b i)) = true) (seq 0 (length b)).

(** [isDraw] as the [App] component computes it. *)
Definition isDraw (b : board) : bool :=
  negb (truthy (winner (getWinnerInfo b))) && isBoardFull b.

(** ** The search *)

Definition scoreTerminal (w : option player) (depth : Z) : Z :=
  match w with
  | Some PlayerO => (10 - depth)%Z
  | Some PlayerX => (depth - 10)%Z
  | None => 0%Z
  end.

(** One iteration of the maximizing loop: [child idx] is the result of
    the recursive call on the board with ["O"] written at [idx]. *)
Definition maxStep (child : nat -> option searchResult)
    (best : option searchResult) (idx : nat) : option searchResult :=
  match best with
  | None => None
  | Some bst =>
      match child idx with
      | None => None
      | Some r =>
          Some (if num_gtb (score r) (score bst)
                then {| score := score r; index := Some idx |}
                else bst)
      end
  end.

(** One iteration of the minimizing loop. *)
Definition minStep (child : nat -> option searchResult)
    (best : option searchResult) (idx : nat) : option searchResult :=
  match best with
  | None => None
  | Some bst =>
      match child idx with
      | None => None
      | Some r =>
          Some (if num_ltb (score r) (score bst)
                then {| score := score r; index := Some idx |}
                else bst)
      end
  end.

(** [minimax], with the recursion depth bounded by [fuel]; [None] means
    the bound was hit before the search finished. *)
Fixpoint minimax_fuel (fuel : nat) (b : board) (isMaximizing : bool)
    (depth : Z) : option searchResult :=
  match winner (getWinnerInfo b) with
  | Some w => Some {| score := Num (scoreTerminal (Some w) depth); index := None |}
  | None =>
      if isBoardFull b then Some {| score := Num 0; index := None |}
      else
        match fuel with
        | 0 => None
        | S fuel' =>
            let moves := availableMoves b in
            if isMaximizing then
              fold_left
                (maxStep (fun idx =>
                   minimax_fuel fuel' (setCell b idx (Some PlayerO)) false (depth + 1)))
                moves
                (Some {| score := NegInfinity; index := head moves |})
            else
              fold_left
                (minStep (fun idx =>
                   minimax_fuel fuel' (setCell b idx (Some PlayerX)) true (depth + 1)))
                moves
                (Some {| score := Infinity; index := head moves |})
        end
  end.

(** Every recursive call fills one empty cell, so the number of empty
    cells bounds the recursion depth. *)
Definition minimax (b : board) (isMaximizing : bool) (depth : Z)
  : option searchResult :=
  minimax_fuel (length (availableMoves b)) b isMaximizing depth.

Definition preferred : list nat := [4; 0; 2; 6; 8; 1; 3; 5; 7].

Definition indexToMove (i : option nat) : move :=
  match i with Some n => MoveIndex n | None => MoveUndefined end.

(** The array read [l[k]] at an integer [k]: [undefined] below 0 and
    from the length of the array on. *)
Definition readAt (l : list nat) (k : Z) : option nat :=
  if (k <? 0)%Z then None else l !! Z.to_nat k.

(** [pickBestAiMove]; [random] is the value of [Math.random()], a
    number at least 0 and below 1.  JavaScript numbers are rationals; the
    product by 3 is exact here, where JavaScript rounds it to the nearest
    number it can hold, which leaves it at least 0 and below 3. *)
Definition pickBestAiMove (random : Q) (b : board) : option move :=
  let moves := availableMoves b in
  if length moves =? 0 then Some MoveNull
  else if length moves =? 9
  then Some (indexToMove (readAt preferred (Qfloor (random * 3))))
  else
    match minimax b true 0 with
    | Some r => Some (indexToMove (index r))
    | None => None
    end.

Definition emptyBoard : list (option player) := replicate 9 None.

(** ** Vocabulary of the properties *)

(** The marker the side to move writes. *)
Definition mark (isMaximizing : bool) : player :=
  if isMaximizing then PlayerO else PlayerX.

(** The score the running best starts from. *)
Definition worst (isMaximizing : bool) : num :=
  if isMaximizing then NegInfinity else Infinity.

Definition loopStep (isMaximizing : bool) :=
  if isMaximizing then maxStep else minStep.

(** [beats m x y]: for the side to move, score [x] is strictly better
    than score [y]. *)
Definition beats (isMaximizing : bool) (x y : Z) : Prop :=
  if isMaximizing then (y < x)%Z else (x < y)%Z.

#[global] Instance beats_dec (m : bool) (x y : Z) : Decision (beats m x y).
Proof. destruct m; simpl; apply _. Defined.

(** The integer score of a search result; 0 when there is none. *)
Definition scoreZ (r : option searchResult) : Z :=
  match r with
  | Some {| score := Num z |} => z
  | _ => 0%Z
  end.

(** [i] is the first among the best of [moves] under the scores [sc]:
    every earlier move is strictly worse, no later move is better. *)
Definition firstBest (isMaximizing : bool) (sc : nat -> Z)
    (moves : list nat) (i : nat) : Prop :=
  exists pre post,
    moves = pre ++ i :: post
    /\ Forall (fun j => beats isMaximizing (sc i) (sc j)) pre
    /\ Forall (fun j => ~ beats isMaximizing (sc j) (sc i)) post.

(** Children of a node all return an integer score. *)
Definition scored (child : nat -> option searchResult) (moves : list nat) : Prop :=
  forall j, j ∈ moves ->
    exists r, child j = Some r /\ score r = Num (scoreZ (child j)).

(** The recursive call made for the move [idx]. *)
Definition childCall (fuel : nat) (b : board) (m : bool) (depth : Z)
    (idx : nat) : option searchResult :=
  minimax_fuel fuel (setCell b idx (Some (mark m))) (negb m) (depth + 1).

(** The result of [minimax] on the child reached by the move [idx]. *)
Definition childResult (b : board) (m : bool) (depth : Z) (idx : nat)
  : option searchResult :=
  minimax (setCell b idx (Some (mark m))) (negb m) (depth + 1).

(** The three cells of line [l] all hold the marker [p]. *)
Definition completes (b : board) (l : winLine) (p : player) : Prop :=
  b !! (fst (fst l)) = Some (Some p)
  /\ b !! (snd (fst l)) = Some (Some p)
  /\ b !! (snd l) = Some (Some p).

(** The guard [winner || isDraw] that ends play in the [App] component;
    a board is in progress when it is false. *)
Definition gameOver (b : board) : bool :=
  truthy (winner (getWinnerInfo b)) || isDraw b.

(** [visits root b m d]: the search started by the selector on [root],
    that is [minimax(root, true, 0)], calls [minimax(b, m, d)]. *)
Inductive visits (root : list (option player))
  : list (option player) -> bool -> Z -> Prop :=
| visits_root : visits root root true 0%Z
| visits_child b m d idx :
    visits root b m d ->
    winner (getWinnerInfo b) = None ->
    isBoardFull b = false ->
    idx ∈ availableMoves b ->
    visits root (setCell b idx (Some (mark m))) (negb m) (d + 1)%Z.

(** ** Example boards *)

(** The two boards the specification names, with O (the AI) to move. *)
Definition boardLastTwo : list (option player) :=
  [Some PlayerX; Some PlayerO; Some PlayerX;
   Some PlayerO; Some PlayerX; Some PlayerO;
   None; None; Some PlayerO].

Definition boardOpenColumn : list (option player) :=
  [Some PlayerX; Some PlayerO; None;
   Some PlayerX; Some PlayerO; None;
   None; None; None].

(** A board X has already won, with four cells still empty. *)
Definition boardWonByX : list (option player) :=
  [Some PlayerX; Some PlayerX; Some PlayerX;
   Some PlayerO; Some PlayerO; None;
   None; None; None].

Definition center : nat := 4.
Definition corners : list nat := [0; 2; 6; 8].
Definition edges : list nat := [1; 3; 5; 7].

(** After the AI's move gave board [b], the game is not over and the
    opponent has a move that wins at once. *)
Definition opponentWinsNext (b : board) : bool :=
  negb (truthy (winner (getWinnerInfo b)))
  && existsb
       (fun j =>
          match winner (getWinnerInfo (setCell b j (Some PlayerX))) with
          | Some PlayerX => true
          | _ => false
          end)
       (availableMoves b).

(** ** Games between the AI and an opponent *)

(** The AI's turn as the effect of the [App] component plays it: ask
    [pickBestAiMove]; on [null] or an occupied cell the effect returns
    and no move is made ([None], as when the search does not finish);
    otherwise ["O"] is written.  An [undefined] move passes both tests
    and names no cell, so the cells stay as they are. *)
Definition aiTurn (random : Q) (b : board) : option (list (option player)) :=
  match pickBestAiMove random b with
  | None => None
  | Some MoveNull => None
  | Some MoveUndefined => Some b
  | Some (MoveIndex i) =>
      if truthy (cellAt b i) then None else Some (setCell b i (Some PlayerO))
  end.

(** The opponent of the specification's AI-vs-search games: X writes its
    marker at the index [minimax] returns in its minimizing role. *)
Definition opponentTurn (b : board) : option (list (option player)) :=
  match minimax b false 0 with
  | None => None
  | Some r =>
      match index r with
      | None => None
      | Some i => Some (setCell b i (Some PlayerX))
      end
  end.

(** Alternate the two sides until the guard [winner || isDraw] ends the
    game, and return the final board; [None] when the game does not end
    within [turns] turns or a side makes no move.  [random] is the value
    of the random source; only a call on the empty board consults it, and a
    game has at most one. *)
Fixpoint playOut (turns : nat) (random : Q) (b : board) (xIsNext : bool)
  : option (list (option player)) :=
  if gameOver b then Some b
  else
    match turns with
    | 0 => None
    | S turns' =>
        match (if xIsNext then opponentTurn b else aiTurn random b) with
        | None => None
        | Some b' => playOut turns' random b' (negb xIsNext)
        end
    end.

(** Whether the AI avoids defeat whatever the opponent plays: every
    reply of X is explored, the AI answers with [aiTurn]. *)
Fixpoint aiSurvives (turns : nat) (random : Q) (b : board) (xIsNext : bool)
  : bool :=
  match winner (getWinnerInfo b) with
  | Some PlayerX => false
  | Some PlayerO => true
  | None =>
      if isBoardFull b then true
      else
        match turns with
        | 0 => false
        | S turns' =>
            if xIsNext then
              forallb
                (fun j => aiSurvives turns' random (setCell b j (Some PlayerX)) false)
                (availableMoves b)
            else
              match aiTurn random b with
              | None => false
              | Some b' => aiSurvives turns' random b' true
              end
        end
  end.

(** ** The [App] component *)

(** The two modes a game is started in, the strings ["pvp"] and ["ai"];
    the [mode] state is [null] on the menu screen. *)
Inductive gameMode : Set := Pvp | Ai.

(** The three pieces of state of the component. *)
Record appState : Set := {
  mode : option gameMode;
  squares : list (option player);
  xIsNext : bool
}.

(** The state the component mounts with. *)
Definition initialState : appState :=
  {| mode := None; squares := emptyBoard; xIsNext := true |}.

(** The test [mode === "ai"]. *)
Definition isAiMode (m : option gameMode) : bool :=
  match m with Some Ai => true | _ => false end.

Definition resetGame (toMenu : bool) (st : appState) : appState :=
  {| mode := if toMenu then None else mode st;
     squares := emptyBoard;
     xIsNext := true |}.

Definition startMode (nextMode : gameMode) (st : appState) : appState :=
  {| mode := Some nextMode; squares := emptyBoard; xIsNext := true |}.

Definition handleSquareClick (i : nat) (st : appState) : appState :=
  if gameOver (squares st) then st
  else if truthy (cellAt (squares st) i) then st
  else if isAiMode (mode st) && negb (xIsNext st) then st
  else
    {| mode := mode st;
       squares := setCell (squares st) i
                    (Some (if xIsNext st then PlayerX else PlayerO));
       xIsNext := negb (xIsNext st) |}.

(** The effect that plays the AI's move, together with its timer
    callback.  Any change of the board between the two cancels the timer,
    so the callback sees the board the move was picked for and the two
    run as one step. *)
Definition aiEffect (random : Q) (st : appState) : appState :=
  if negb (isAiMode (mode st)) then st
  else if gameOver (squares st) then st
  else if xIsNext st then st
  else
    match aiTurn random (squares st) with
    | None => st
    | Some b' => {| mode := mode st; squares := b'; xIsNext := true |}
    end.

Definition markerString (p : player) : string :=
  match p with PlayerX => "X" | PlayerO => "O" end.

(** The [status] line. *)
Definition status (st : appState) : string :=
  match winner (getWinnerInfo (squares st)) with
  | Some w => (markerString w ++ " wins!")%string
  | None =>
      if isDraw (squares st) then "Draw!"%string
      else if negb (xIsNext st) && isAiMode (mode st) then "AI thinking..."%string
      else if xIsNext st then "Next: X"%string else "Next: O"%string
  end.

(** The [disabled] property every [Square] is rendered with. *)
Definition squareDisabled (st : appState) : bool :=
  truthy (winner (getWinnerInfo (squares st)))
  || isDraw (squares st)
  || (isAiMode (mode st) && negb (xIsNext st)).

(** The set of the indices of the winning line, empty without one. *)
Definition winningSet (b : board) : gset nat :=
  match line (getWinnerInfo b) with
  | Some (a, b', c) => list_to_set [a; b'; c]
  | None => ∅
  end.

(** The [isWinning] property of the square at index [i]. *)
Definition isWinning (b : board) (i : nat) : bool :=
  bool_decide (i ∈ winningSet b).

(** A point of the overlay, in the units of its 3 by 3 view box.  The
    coordinates are halves of small integers, which JavaScript numbers
    hold exactly; they are rationals here. *)
Record point : Set := { px : Q; py : Q }.

Definition indexToCenter (i : nat) : point :=
  {| px := inject_Z (Z.of_nat (i mod 3)) + (1 # 2);
     py := inject_Z (Z.of_nat (i / 3)) + (1 # 2) |}.

Record endpoints : Set := { x1 : Q; y1 : Q; x2 : Q; y2 : Q }.

Definition getLineEndpoints (l : option winLine) : option endpoints :=
  match l with
  | None => None
  | Some (a, _, c) =>
      Some {| x1 := px (indexToCenter a); y1 := py (indexToCenter a);
              x2 := px (indexToCenter c); y2 := py (indexToCenter c) |}
  end.

(** What can happen to the component: a mode button, one of the two
    reset buttons, a click on square [i], or the AI's effect running
    with the value [random] of the random source. *)
Inductive event : Set :=
| StartMode (m : gameMode)
| ResetGame (toMenu : bool)
| Click (i : nat)
| AiMove (random : Q).

Definition step (st : appState) (ev : event) : appState :=
  match ev with
  | StartMode m => startMode m st
  | ResetGame toMenu => resetGame toMenu st
  | Click i => handleSquareClick i st
  | AiMove random => aiEffect random st
  end.

(** The states the component can be in.  A square exists, and can be
    clicked, for each index of the board. *)
Inductive reachable : appState -> Prop :=
| reachable_initial : reachable initialState
| reachable_start st m : reachable st -> reachable (startMode m st)
| reachable_reset st toMenu : reachable st -> reachable (resetGame toMenu st)
| reachable_click st i :
    reachable st -> i < length (squares st) ->
    reachable (handleSquareClick i st)
| reachable_ai st random : reachable st -> reachable (aiEffect random st).

(** The number of cells holding the marker [p]. *)
Definition countMarker (p : player) (b : board) : nat :=
  length (filter (fun c => c = Some p) b).

(** The marker counts of alternating play that X opens. *)
Definition alternates (st : appState) : Prop :=
  countMarker PlayerX (squares st)
  = countMarker PlayerO (squares st) + (if xIsNext st then 0 else 1).

(** No two completed lines of the board hold different markers. *)
Definition singleWinner (b : board) : Prop :=
  forall l l' p q,
    l ∈ WIN_LINES -> l' ∈ WIN_LINES ->
    completes b l p -> completes b l' q -> p = q.

(** The events that play a move, as opposed to the buttons that start a
    new game. *)
Definition isMove (ev : event) : bool :=
  match ev with Click _ | AiMove _ => true | _ => false end.

(** ** The cursor trail *)

Section Trail.

(** The particles, and the two methods the list code uses: [update],
    which changes a particle in place, and the test [life <= 0]. *)
Variable particle : Type.
Variable update : particle -> particle.
Variable expired : particle -> bool.

(** The [for] loop of [animate] on the particle array: [i] is the loop
    index at the head of an iteration.  After a [splice] the source
    decrements [i] and the loop header increments it again, so the next
    iteration runs at the same index.  [None] means [fuel] iterations did
    not finish the loop. *)
Fixpoint animateLoop (fuel : nat) (i : nat) (particles : list particle)
  : option (list particle) :=
  match particles !! i with
  | None => Some particles
  | Some p =>
      match fuel with
      | 0 => None
      | S fuel' =>
          let p' := update p in
          let particles' := <[i := p']> particles in
          if expired p'
          then animateLoop fuel' i (delete i particles')
          else animateLoop fuel' (S i) particles'
      end
  end.

(** Each iteration ends the loop, drops a particle or moves on, so the
    length of the array bounds the number of iterations. *)
Definition animate (particles : list particle) : option (list particle) :=
  animateLoop (length particles) 0 particles.

(** The clock: [tooSoon now lastSpawn] is the test
    [now - lastSpawn < 8]. *)
Variable time : Type.
Variable tooSoon : time -> time -> bool.

(** [onMove] on the pair of [particles] and [lastSpawn]; [p1] and [p2]
    are the two particles the handler constructs. *)
Definition onMove (now : time) (p1 p2 : particle)
    (st : list particle * time) : list particle * time :=
  let '(particles, lastSpawn) := st in
  if tooSoon now lastSpawn then st
  else
    let pushed := particles ++ [p1; p2] in
    (if 350 <? length pushed
     then drop (length pushed - 350) pushed
     else pushed,
     now).

End Trail.

(** * Properties *)


(** ** Basic facts about cells and boards *)

Lemma cellAt_lookup (b : board) (i : nat) (c : cell) :
  b !! i = Some c -> cellAt b i = c.
Proof. unfold cellAt. intros ->. reflexivity. Qed.

Lemma cellAt_Some (b : board) (i : nat) (p : player) :
  cellAt b i = Some p <-> b !! i = Some (Some p).
Proof.
  unfold cellAt. destruct (b !! i) as [c|]; simpl; split; congruence.
Qed.

Lemma cell_eqb_eq (c d : cell) : cell_eqb c d = true <-> c = d.
Proof.
  destruct c as [[]|], d as [[]|]; simpl; split; congruence.
Qed.

Lemma setCell_in_range (b : board) (idx : nat) (v : cell) :
  idx < length b -> setCell b idx v = <[idx := v]> b.
Proof.
  intros H. unfold setCell.
  destruct (Nat.ltb_spec idx (length b)); [reflexivity | lia].
Qed.

Lemma elem_of_availableMoves (b : board) (i : nat) :
  i ∈ availableMoves b <-> b !! i = Some None.
Proof.
  unfold availableMoves. rewrite list_elem_of_filter, elem_of_seq.
  unfold cellAt. split.
  - intros [Hc [_ Hi]]. simpl in Hi.
    destruct (lookup_lt_is_Some_2 b i Hi) as [c Hl].
    rewrite Hl in Hc |- *. destruct c; simpl in Hc; congruence.
  - intros Hl. rewrite Hl. simpl. split; [reflexivity|].
    split; [lia|]. simpl. apply lookup_lt_is_Some_1. eauto.
Qed.

Lemma availableMoves_lt (b : board) (i : nat) :
  i ∈ availableMoves b -> i < length b.
Proof.
  rewrite elem_of_availableMoves. intros H.
  apply lookup_lt_is_Some_1. eauto.
Qed.

Lemma availableMoves_NoDup (b : board) : NoDup (availableMoves b).
Proof. unfold availableMoves. apply NoDup_filter, NoDup_seq. Qed.

Lemma isBoardFull_true (b : board) :
  isBoardFull b = true <-> forall i c, b !! i = Some c -> c <> None.
Proof.
  unfold isBoardFull. induction b as [|c b IH]; simpl.
  - split; [intros _ i c H; destruct i; discriminate | reflexivity].
  - rewrite andb_true_iff, IH. split.
    + intros [Hc Hb] [|i] c' Hl; simpl in Hl.
      * injection Hl as <-. destruct c; [congruence | discriminate].
      * eapply Hb, Hl.
    + intros H. split.
      * specialize (H 0 c eq_refl). destruct c; [reflexivity | congruence].
      * intros i c' Hl. apply (H (S i) c' Hl).
Qed.

Lemma isBoardFull_false (b : board) :
  isBoardFull b = false <-> exists i, b !! i = Some None.
Proof.
  unfold isBoardFull. induction b as [|c b IH]; simpl.
  - split; [discriminate | intros [i H]; destruct i; discriminate].
  - rewrite andb_false_iff, IH. split.
    + intros [Hc | [i Hi]].
      * exists 0. destruct c; [discriminate | reflexivity].
      * exists (S i). exact Hi.
    + intros [[|i] Hi]; simpl in Hi.
      * left. injection Hi as ->. reflexivity.
      * right. eauto.
Qed.

Lemma isBoardFull_availableMoves (b : board) :
  isBoardFull b = true <-> availableMoves b = [].
Proof.
  split.
  - intros Hf. destruct (availableMoves b) as [|i l] eqn:E; [reflexivity|].
    assert (Hi : i ∈ availableMoves b) by (rewrite E; left).
    apply elem_of_availableMoves in Hi.
    rewrite isBoardFull_true in Hf. destruct (Hf i None Hi eq_refl).
  - intros E. destruct (isBoardFull b) eqn:Hf; [reflexivity|].
    apply isBoardFull_false in Hf as [i Hi].
    apply elem_of_availableMoves in Hi. rewrite E in Hi.
    inversion Hi.
Qed.

Lemma availableMoves_insert (b : board) (idx : nat) (p : player) :
  idx < length b ->
  availableMoves (<[idx := Some p]> b)
  = filter (fun j => j <> idx) (availableMoves b).
Proof.
  intros Hlt. unfold availableMoves.
  rewrite length_insert, list_filter_filter.
  apply list_filter_iff. intros j. unfold cellAt.
  destruct (decide (j = idx)) as [->|Hne].
  - rewrite list_lookup_insert_eq by exact Hlt. simpl.
    split; [discriminate | intros [H _]; congruence].
  - rewrite list_lookup_insert_ne by congruence. tauto.
Qed.

Lemma availableMoves_setCell (b : board) (idx : nat) (p : player) :
  idx ∈ availableMoves b ->
  availableMoves (setCell b idx (Some p))
  = filter (fun j => j <> idx) (availableMoves b).
Proof.
  intros Hin. pose proof (availableMoves_lt _ _ Hin) as Hlt.
  rewrite setCell_in_range by exact Hlt.
  apply availableMoves_insert, Hlt.
Qed.

Lemma availableMoves_setCell_lt (b : board) (idx : nat) (p : player) :
  idx ∈ availableMoves b ->
  length (availableMoves (setCell b idx (Some p))) < length (availableMoves b).
Proof.
  intros Hin. rewrite availableMoves_setCell by exact Hin.
  apply length_filter_lt with idx; [exact Hin | tauto].
Qed.

Lemma length_setCell (b : board) (idx : nat) (p : player) :
  idx ∈ availableMoves b -> length (setCell b idx (Some p)) = length b.
Proof.
  intros Hin. rewrite setCell_in_range by (eapply availableMoves_lt, Hin).
  apply length_insert.
Qed.

(** ** The two loops of [minimax] as one *)

Section Loop.

(** The side to move: [true] for the maximizing loop. *)
Variable m : bool.

Lemma loopStep_better child s i j r :
  child j = Some r -> score r = Num (scoreZ (child j)) ->
  beats m (scoreZ (child j)) s ->
  loopStep m child (Some {| score := Num s; index := i |}) j
  = Some {| score := Num (scoreZ (child j)); index := Some j |}.
Proof.
  intros Hc Hs Hb. revert Hs Hb. generalize (scoreZ (child j)). intros z Hs Hb.
  unfold loopStep, maxStep, minStep, num_ltb.
  destruct m; rewrite Hc; simpl; rewrite Hs; simpl in *;
    case Z.ltb_spec; intros; try reflexivity; lia.
Qed.

Lemma loopStep_not_better child s i j r :
  child j = Some r -> score r = Num (scoreZ (child j)) ->
  ~ beats m (scoreZ (child j)) s ->
  loopStep m child (Some {| score := Num s; index := i |}) j
  = Some {| score := Num s; index := i |}.
Proof.
  intros Hc Hs Hb. revert Hs Hb. generalize (scoreZ (child j)). intros z Hs Hb.
  unfold loopStep, maxStep, minStep, num_ltb.
  destruct m; rewrite Hc; simpl; rewrite Hs; simpl in *;
    case Z.ltb_spec; intros; try reflexivity; lia.
Qed.

Lemma loopStep_from_worst child i j r :
  child j = Some r -> score r = Num (scoreZ (child j)) ->
  loopStep m child (Some {| score := worst m; index := i |}) j
  = Some {| score := Num (scoreZ (child j)); index := Some j |}.
Proof.
  intros Hc Hs. revert Hs. generalize (scoreZ (child j)). intros z Hs.
  unfold loopStep, maxStep, minStep, num_ltb.
  destruct m; rewrite Hc; simpl; rewrite Hs; reflexivity.
Qed.

Lemma beats_trans (x y z : Z) :
  beats m x y -> beats m y z -> beats m x z.
Proof. destruct m; simpl; lia. Qed.

Lemma beats_not_trans (x y z : Z) :
  beats m x y -> ~ beats m z y -> beats m x z.
Proof. destruct m; simpl; lia. Qed.

Lemma scored_cons child j moves :
  scored child (j :: moves) ->
  (exists r, child j = Some r /\ score r = Num (scoreZ (child j)))
  /\ scored child moves.
Proof.
  intros H. split; [apply H; left | intros k Hk; apply H; right; exact Hk].
Qed.

(** The loop started from a finite running best [s] held by [i]: either
    nothing beats [s], or the result is the first best strict improvement. *)
Lemma loop_from_finite child moves :
  scored child moves ->
  forall s i,
  exists s' i',
    fold_left (loopStep m child) moves (Some {| score := Num s; index := Some i |})
    = Some {| score := Num s'; index := Some i' |}
    /\ ((s' = s /\ i' = i
         /\ Forall (fun j => ~ beats m (scoreZ (child j)) s) moves)
        \/ (s' = scoreZ (child i') /\ beats m s' s
            /\ firstBest m (fun j => scoreZ (child j)) moves i')).
Proof.
  induction moves as [|j moves IH]; intros Hsc s i.
  - exists s, i. split; [reflexivity | left; auto].
  - apply scored_cons in Hsc as [(r & Hr & Hs) Hsc]. simpl fold_left.
    destruct (decide (beats m (scoreZ (child j)) s)) as [Hb|Hb].
    + rewrite (loopStep_better child s (Some i) j r Hr Hs Hb).
      destruct (IH Hsc (scoreZ (child j)) j) as (s' & i' & Hf & Hcase).
      exists s', i'. split; [exact Hf|]. right.
      destruct Hcase as [(-> & -> & Hall) | (-> & Hb' & pre & post & -> & Hpre & Hpost)].
      * split; [reflexivity|]. split; [exact Hb|].
        exists [], moves. split; [reflexivity|]. split; [constructor | exact Hall].
      * split; [reflexivity|]. split; [eapply beats_trans; eassumption|].
        exists (j :: pre), post. split; [reflexivity|].
        split; [constructor; assumption | exact Hpost].
    + rewrite (loopStep_not_better child s (Some i) j r Hr Hs Hb).
      destruct (IH Hsc s i) as (s' & i' & Hf & Hcase).
      exists s', i'. split; [exact Hf|].
      destruct Hcase as [(-> & -> & Hall) | (-> & Hb' & pre & post & -> & Hpre & Hpost)].
      * left. split; [reflexivity|]. split; [reflexivity|].
        constructor; assumption.
      * right. split; [reflexivity|]. split; [exact Hb'|].
        exists (j :: pre), post. split; [reflexivity|].
        split; [|exact Hpost].
        constructor; [eapply beats_not_trans; eassumption | exact Hpre].
Qed.

(** The loop as [minimax] starts it: on a non-empty list of moves it
    returns the first best child. *)
Lemma loop_from_worst child moves :
  scored child moves -> moves <> [] ->
  exists i,
    fold_left (loopStep m child) moves
      (Some {| score := worst m; index := head moves |})
    = Some {| score := Num (scoreZ (child i)); index := Some i |}
    /\ firstBest m (fun j => scoreZ (child j)) moves i.
Proof.
  intros Hsc Hne. destruct moves as [|j moves]; [congruence|].
  apply scored_cons in Hsc as [(r & Hr & Hs) Hsc]. simpl fold_left.
  rewrite (loopStep_from_worst child _ j r Hr Hs).
  destruct (loop_from_finite child moves Hsc (scoreZ (child j)) j)
    as (s' & i' & Hf & Hcase).
  exists i'. rewrite Hf.
  destruct Hcase as [(-> & -> & Hall) | (-> & Hb' & pre & post & -> & Hpre & Hpost)].
  - split; [reflexivity|]. exists [], moves.
    split; [reflexivity|]. split; [constructor | exact Hall].
  - split; [reflexivity|]. exists (j :: pre), post.
    split; [reflexivity|]. split; [constructor; assumption | exact Hpost].
Qed.

Lemma fold_left_loopStep_ext child1 child2 moves acc :
  (forall j, j ∈ moves -> child1 j = child2 j) ->
  fold_left (loopStep m child1) moves acc
  = fold_left (loopStep m child2) moves acc.
Proof.
  revert acc. induction moves as [|j moves IH]; intros acc H; [reflexivity|].
  simpl. rewrite IH by (intros k Hk; apply H; right; exact Hk).
  f_equal. unfold loopStep, maxStep, minStep.
  destruct m, acc; try reflexivity; rewrite (H j) by left; reflexivity.
Qed.

End Loop.

(** ** Equations of [minimax] *)

Lemma minimax_fuel_won fuel b m depth w :
  winner (getWinnerInfo b) = Some w ->
  minimax_fuel fuel b m depth
  = Some {| score := Num (scoreTerminal (Some w) depth); index := None |}.
Proof. intros H. destruct fuel; simpl; rewrite H; reflexivity. Qed.

Lemma minimax_fuel_full fuel b m depth :
  winner (getWinnerInfo b) = None -> isBoardFull b = true ->
  minimax_fuel fuel b m depth = Some {| score := Num 0; index := None |}.
Proof. intros H1 H2. destruct fuel; simpl; rewrite H1, H2; reflexivity. Qed.

Lemma minimax_fuel_step fuel b m depth :
  winner (getWinnerInfo b) = None -> isBoardFull b = false ->
  minimax_fuel (S fuel) b m depth
  = fold_left (loopStep m (childCall fuel b m depth)) (availableMoves b)
      (Some {| score := worst m; index := head (availableMoves b) |}).
Proof.
  intros H1 H2. simpl. rewrite H1, H2. destruct m; reflexivity.
Qed.

Lemma availableMoves_nonempty (b : board) :
  isBoardFull b = false -> availableMoves b <> [].
Proof.
  intros Hf E. apply isBoardFull_availableMoves in E. congruence.
Qed.

(** Any two amounts of fuel that cover the empty cells give the same
    result. *)
Lemma minimax_fuel_irrelevant (f1 : nat) :
  forall f2 b m depth,
    length (availableMoves b) <= f1 -> length (availableMoves b) <= f2 ->
    minimax_fuel f1 b m depth = minimax_fuel f2 b m depth.
Proof.
  induction f1 as [|f1 IH]; intros f2 b m depth H1 H2.
  - destruct (winner (getWinnerInfo b)) as [w|] eqn:Hw.
    { rewrite !(minimax_fuel_won _ _ _ _ w) by exact Hw. reflexivity. }
    destruct (isBoardFull b) eqn:Hf.
    { rewrite !minimax_fuel_full by assumption. reflexivity. }
    apply availableMoves_nonempty in Hf.
    destruct (availableMoves b); [congruence | simpl in H1; lia].
  - destruct (winner (getWinnerInfo b)) as [w|] eqn:Hw.
    { rewrite !(minimax_fuel_won _ _ _ _ w) by exact Hw. reflexivity. }
    destruct (isBoardFull b) eqn:Hf.
    { rewrite !minimax_fuel_full by assumption. reflexivity. }
    destruct f2 as [|f2].
    { apply availableMoves_nonempty in Hf.
      destruct (availableMoves b); [congruence | simpl in H2; lia]. }
    rewrite !minimax_fuel_step by assumption.
    apply fold_left_loopStep_ext. intros j Hj. unfold childCall.
    pose proof (availableMoves_setCell_lt b j (mark m) Hj).
    apply IH; lia.
Qed.

Lemma minimax_fuel_enough fuel b m depth :
  length (availableMoves b) <= fuel ->
  minimax_fuel fuel b m depth = minimax b m depth.
Proof.
  intros H. unfold minimax. apply minimax_fuel_irrelevant; [exact H | lia].
Qed.

Lemma minimax_won b m depth w :
  winner (getWinnerInfo b) = Some w ->
  minimax b m depth
  = Some {| score := Num (scoreTerminal (Some w) depth); index := None |}.
Proof. apply minimax_fuel_won. Qed.

Lemma minimax_full b m depth :
  winner (getWinnerInfo b) = None -> isBoardFull b = true ->
  minimax b m depth = Some {| score := Num 0; index := None |}.
Proof. apply minimax_fuel_full. Qed.

(** At a node that is not terminal, [minimax] is its loop over the
    results of [minimax] on the children. *)
Lemma minimax_step b m depth :
  winner (getWinnerInfo b) = None -> isBoardFull b = false ->
  minimax b m depth
  = fold_left (loopStep m (childResult b m depth)) (availableMoves b)
      (Some {| score := worst m; index := head (availableMoves b) |}).
Proof.
  intros Hw Hf. unfold minimax at 1.
  pose proof (availableMoves_nonempty b Hf) as Hne.
  destruct (length (availableMoves b)) as [|n] eqn:Hlen.
  { destruct (availableMoves b); [congruence | discriminate]. }
  rewrite minimax_fuel_step by assumption.
  apply fold_left_loopStep_ext. intros j Hj. unfold childCall, childResult.
  pose proof (availableMoves_setCell_lt b j (mark m) Hj).
  apply minimax_fuel_enough. lia.
Qed.

(** Induction on the number of empty cells of the board. *)
Lemma board_empties_ind (P : list (option player) -> Prop) :
  (forall b,
      (forall idx p, idx ∈ availableMoves b -> P (setCell b idx (Some p))) ->
      P b) ->
  forall b, P b.
Proof.
  intros Hstep.
  assert (H : forall n b, length (availableMoves b) < n -> P b).
  { induction n as [|n IH]; intros b Hn; [lia|].
    apply Hstep. intros idx p Hin. apply IH.
    pose proof (availableMoves_setCell_lt b idx p Hin). lia. }
  intros b. apply (H (S (length (availableMoves b)))). lia.
Qed.

(** [minimax] is total, and its score is an integer: the infinities
    never leave the loop. *)
Lemma minimax_total (b : board) :
  forall m depth,
    exists r, minimax b m depth = Some r
              /\ score r = Num (scoreZ (minimax b m depth)).
Proof.
  induction b as [b IH] using board_empties_ind. intros m depth.
  destruct (winner (getWinnerInfo b)) as [w|] eqn:Hw.
  { rewrite (minimax_won _ _ _ w Hw). eexists. split; reflexivity. }
  destruct (isBoardFull b) eqn:Hf.
  { rewrite (minimax_full _ _ _ Hw Hf). eexists. split; reflexivity. }
  rewrite (minimax_step _ _ _ Hw Hf).
  destruct (loop_from_worst m (childResult b m depth) (availableMoves b))
    as (i & Hi & _).
  - intros j Hj. apply IH, Hj.
  - apply availableMoves_nonempty, Hf.
  - rewrite Hi. eexists. split; reflexivity.
Qed.

Lemma scored_children (b : board) (m : bool) (depth : Z) :
  scored (childResult b m depth) (availableMoves b).
Proof. intros j Hj. apply minimax_total. Qed.

(** ** The evaluator: completed lines *)

Lemma completes_functional b l p q : completes b l p -> completes b l q -> p = q.
Proof. intros [H _] [H' _]. congruence. Qed.

Lemma lineMatches_true b l :
  lineMatches b l = true <-> exists p, completes b l p.
Proof.
  destruct l as [[a1 a2] a3]. unfold lineMatches, completes. simpl.
  rewrite !andb_true_iff, !cell_eqb_eq. split.
  - intros [[Ht H2] H3]. destruct (cellAt b a1) as [p|] eqn:H1; [|discriminate].
    exists p. symmetry in H2, H3. rewrite cellAt_Some in H1, H2, H3. auto.
  - intros (p & H1 & H2 & H3). rewrite <- cellAt_Some in H1, H2, H3.
    rewrite H1, H2, H3. auto.
Qed.

Lemma lineMatches_false b l :
  lineMatches b l = false <-> forall p, ~ completes b l p.
Proof.
  split.
  - intros H p Hp. assert (lineMatches b l = true) by (apply lineMatches_true; eauto).
    congruence.
  - intros H. destruct (lineMatches b l) eqn:E; [|reflexivity].
    apply lineMatches_true in E as [p Hp]. destruct (H p Hp).
Qed.

Lemma scanLines_none lines b :
  Forall (fun l => forall p, ~ completes b l p) lines ->
  scanLines lines b = {| winner := None; line := None |}.
Proof.
  induction 1 as [|l lines Hl _ IH]; [reflexivity|].
  simpl. apply lineMatches_false in Hl. rewrite Hl. exact IH.
Qed.

Lemma scanLines_app_skip pre rest b :
  Forall (fun l => forall p, ~ completes b l p) pre ->
  scanLines (pre ++ rest) b = scanLines rest b.
Proof.
  induction 1 as [|l pre Hl _ IH]; [reflexivity|].
  simpl. apply lineMatches_false in Hl. rewrite Hl. exact IH.
Qed.

Lemma scanLines_hit l rest b p :
  completes b l p ->
  scanLines (l :: rest) b = {| winner := Some p; line := Some l |}.
Proof.
  intros Hp. simpl.
  assert (Hm : lineMatches b l = true) by (apply lineMatches_true; eauto).
  rewrite Hm. destruct Hp as [H1 _]. rewrite (cellAt_lookup _ _ _ H1).
  reflexivity.
Qed.

(** The scan splits the list at the first completed line, if any. *)
Lemma scanLines_split lines b :
  Forall (fun l => forall p, ~ completes b l p) lines
  \/ exists pre l post p,
       lines = pre ++ l :: post
       /\ Forall (fun l' => forall q, ~ completes b l' q) pre
       /\ completes b l p.
Proof.
  induction lines as [|l lines IH]; [left; constructor|].
  destruct (lineMatches b l) eqn:Hm.
  - right. apply lineMatches_true in Hm as [p Hp].
    exists [], l, lines, p. repeat split; try apply Hp. constructor.
  - pose proof (proj1 (lineMatches_false b l) Hm) as Hno.
    destruct IH as [IH | (pre & l0 & post & p & -> & Hpre & Hp)].
    + left. constructor; assumption.
    + right. exists (l :: pre), l0, post, p.
      split; [reflexivity|]. split; [constructor; assumption | exact Hp].
Qed.

Lemma getWinnerInfo_None b :
  winner (getWinnerInfo b) = None <->
  forall l p, l ∈ WIN_LINES -> ~ completes b l p.
Proof.
  unfold getWinnerInfo. split.
  - intros Hw l p Hl Hp.
    destruct (scanLines_split WIN_LINES b)
      as [Hall | (pre & l0 & post & p0 & E & Hpre & Hp0)].
    + rewrite Forall_forall in Hall. exact (Hall l Hl p Hp).
    + rewrite E, (scanLines_app_skip _ _ _ Hpre),
        (scanLines_hit _ _ _ _ Hp0) in Hw. discriminate.
  - intros H. rewrite scanLines_none; [reflexivity|].
    apply Forall_forall. intros l Hl p. apply H, Hl.
Qed.

(** ** What the evaluator reports *)

(** C1. On every board with a completed line (one of the 8 winning
    triples whose three cells hold the same marker), [getWinnerInfo]
    returns the FIRST completed line in the fixed order of [WIN_LINES]
    together with the marker on it: no line before the returned one is
    completed.  The completed line [l] one started from is the returned
    one unless a completed line precedes it in [WIN_LINES]. *)
Theorem getWinnerInfo_first_completed_line (b : board) (l : winLine) (p : player) :
  l ∈ WIN_LINES -> completes b l p ->
  length WIN_LINES = 8
  /\ exists pre l0 post p0,
       WIN_LINES = pre ++ l0 :: post
       /\ Forall (fun l' => forall q, ~ completes b l' q) pre
       /\ completes b l0 p0
       /\ getWinnerInfo b = {| winner := Some p0; line := Some l0 |}
       /\ ((l0 = l /\ p0 = p) \/ l ∈ post).
Proof.
  intros Hl Hp. split; [reflexivity|].
  destruct (scanLines_split WIN_LINES b)
    as [Hall | (pre & l0 & post & p0 & E & Hpre & Hp0)].
  { rewrite Forall_forall in Hall. destruct (Hall l Hl p Hp). }
  exists pre, l0, post, p0. repeat split; try assumption; try apply Hp0.
  - unfold getWinnerInfo. rewrite E, (scanLines_app_skip _ _ _ Hpre).
    apply scanLines_hit, Hp0.
  - rewrite E in Hl. apply elem_of_app in Hl as [Hl | Hl].
    + rewrite Forall_forall in Hpre. destruct (Hpre l Hl p Hp).
    + apply elem_of_cons in Hl as [-> | Hl]; [left | right; exact Hl].
      split; [reflexivity|]. eapply completes_functional; eassumption.
Qed.

Lemma getWinnerInfo_first_completed_line_witness :
  let b := [Some PlayerO; Some PlayerO; Some PlayerO;
            Some PlayerX; Some PlayerX; Some PlayerX;
            None; None; None] in
  completes b (3, 4, 5) PlayerX
  /\ length WIN_LINES = 8
  /\ exists pre l0 post p0,
       WIN_LINES = pre ++ l0 :: post
       /\ Forall (fun l' => forall q, ~ completes b l' q) pre
       /\ completes b l0 p0
       /\ getWinnerInfo b = {| winner := Some p0; line := Some l0 |}
       /\ ((l0 = (3, 4, 5) /\ p0 = PlayerX) \/ (3, 4, 5) ∈ post).
Proof.
  intros b. split; [repeat split|].
  apply (getWinnerInfo_first_completed_line b (3, 4, 5) PlayerX).
  - unfold WIN_LINES. repeat constructor.
  - repeat split.
Defined.

(** C2. On every board with no completed line, no winner (and no line)
    is reported; [isDraw] holds exactly when every cell is non-empty,
    and when some cell is empty the board is neither a draw nor over:
    it is in progress. *)
Theorem no_line_draw_iff_full (b : board) :
  (forall l p, l ∈ WIN_LINES -> ~ completes b l p) ->
  getWinnerInfo b = {| winner := None; line := None |}
  /\ (isDraw b = true <-> forall i c, b !! i = Some c -> c <> None)
  /\ ((exists i, b !! i = Some None) -> isDraw b = false /\ gameOver b = false).
Proof.
  intros Hno.
  assert (Hg : getWinnerInfo b = {| winner := None; line := None |}).
  { unfold getWinnerInfo. apply scanLines_none, Forall_forall.
    intros l Hl p. apply Hno, Hl. }
  split; [exact Hg|]. unfold gameOver, isDraw. rewrite Hg. simpl. split.
  - apply isBoardFull_true.
  - intros He. apply isBoardFull_false in He. rewrite He. auto.
Qed.

Lemma no_line_draw_iff_full_witness :
  isDraw [Some PlayerX; Some PlayerO; Some PlayerX;
          Some PlayerX; Some PlayerO; Some PlayerO;
          Some PlayerO; Some PlayerX; Some PlayerX] = true
  /\ gameOver [Some PlayerX; None; None; None; Some PlayerO;
               None; None; None; None] = false.
Proof.
  split.
  - apply (no_line_draw_iff_full
             [Some PlayerX; Some PlayerO; Some PlayerX;
              Some PlayerX; Some PlayerO; Some PlayerO;
              Some PlayerO; Some PlayerX; Some PlayerX]).
    + apply getWinnerInfo_None. reflexivity.
    + intros i c Hi.
      do 9 (destruct i as [|i]; [injection Hi as <-; discriminate|]).
      discriminate.
  - apply (no_line_draw_iff_full
             [Some PlayerX; None; None; None; Some PlayerO;
              None; None; None; None]).
    + apply getWinnerInfo_None. reflexivity.
    + exists 1. reflexivity.
Defined.

(** ** The search tree *)

Lemma filter_all (P : nat -> Prop) `{!forall x, Decision (P x)} (l : list nat) :
  Forall P l -> filter P l = l.
Proof.
  induction 1 as [|x l Hx _ IH]; [reflexivity|].
  rewrite filter_cons_True by exact Hx. f_equal. exact IH.
Qed.

Lemma length_filter_ne (l : list nat) (idx : nat) :
  NoDup l -> idx ∈ l ->
  S (length (filter (fun j => j <> idx) l)) = length l.
Proof.
  induction 1 as [|x l Hx Hnd IH]; intros Hin; [inversion Hin|].
  rewrite filter_cons. destruct (decide (x <> idx)) as [Hne|Heq].
  - simpl. f_equal. apply IH.
    apply elem_of_cons in Hin as [->|Hin]; [congruence | exact Hin].
  - assert (x = idx) as ->
      by (destruct (decide (x = idx)) as [e|n]; [exact e | destruct (Heq n)]).
    simpl. f_equal. f_equal. apply filter_all.
    rewrite Forall_forall. intros j Hj ->. exact (Hx Hj).
Qed.

Lemma availableMoves_setCell_length (b : board) (idx : nat) (p : player) :
  idx ∈ availableMoves b ->
  S (length (availableMoves (setCell b idx (Some p)))) = length (availableMoves b).
Proof.
  intros Hin. rewrite availableMoves_setCell by exact Hin.
  apply length_filter_ne; [apply availableMoves_NoDup | exact Hin].
Qed.

(** The depth of a visited node is the number of markers written since
    the root, one per ply. *)
Lemma visits_depth root b m d :
  visits root b m d ->
  Z.of_nat (length (availableMoves root))
  = (Z.of_nat (length (availableMoves b)) + d)%Z.
Proof.
  induction 1 as [|b m d idx _ IH _ _ Hin]; [lia|].
  pose proof (availableMoves_setCell_length b idx (mark m) Hin). lia.
Qed.

(** ** What the loop returns at an inner node *)

Lemma firstBest_elem m sc moves i : firstBest m sc moves i -> i ∈ moves.
Proof.
  intros (pre & post & -> & _). apply elem_of_app. right. left.
Qed.

Lemma firstBest_all_tie m sc moves i :
  firstBest m sc moves i ->
  (forall j, j ∈ moves -> sc j = sc i) ->
  head moves = Some i.
Proof.
  intros (pre & post & -> & Hpre & _) Htie.
  destruct pre as [|j pre]; [reflexivity|].
  apply Forall_cons in Hpre as [Hj _].
  specialize (Htie j (list_elem_of_here _ _)).
  rewrite Htie in Hj. destruct m; simpl in Hj; lia.
Qed.

(** At a node that is not terminal, [minimax] returns the first best
    child together with its score. *)
Lemma minimax_inner b m depth :
  winner (getWinnerInfo b) = None -> isBoardFull b = false ->
  exists i,
    minimax b m depth
    = Some {| score := Num (scoreZ (childResult b m depth i)); index := Some i |}
    /\ firstBest m (fun j => scoreZ (childResult b m depth j)) (availableMoves b) i.
Proof.
  intros Hw Hf. rewrite (minimax_step b m depth Hw Hf).
  apply loop_from_worst; [apply scored_children | apply availableMoves_nonempty, Hf].
Qed.

(** Past its two early returns, [pickBestAiMove] is the search. *)
Lemma pickBestAiMove_search random b :
  availableMoves b <> [] -> length (availableMoves b) <> 9 ->
  pickBestAiMove random b
  = match minimax b true 0 with
    | Some r => Some (indexToMove (index r))
    | None => None
    end.
Proof.
  intros H0 H9. unfold pickBestAiMove.
  destruct (Nat.eqb_spec (length (availableMoves b)) 0) as [E|_].
  { destruct (availableMoves b); [congruence | discriminate]. }
  destruct (Nat.eqb_spec (length (availableMoves b)) 9) as [E|_]; [lia|].
  reflexivity.
Qed.

(** From every node the search visits it goes on to a terminal node
    whose score, taken at that node's depth, is the score it returns for
    the node. *)
Lemma visits_reaches_terminal (root b : board) :
  forall m d,
    visits root b m d ->
    exists b' m' d',
      visits root b' m' d' /\ (d <= d')%Z
      /\ (winner (getWinnerInfo b') <> None \/ isBoardFull b' = true)
      /\ scoreZ (minimax b m d) = scoreTerminal (winner (getWinnerInfo b')) d'.
Proof.
  induction b as [b IH] using board_empties_ind. intros m d Hv.
  destruct (winner (getWinnerInfo b)) as [w|] eqn:Hw.
  { exists b, m, d. split; [exact Hv|]. split; [lia|].
    rewrite (minimax_won b m d w Hw), Hw.
    split; [left; discriminate | reflexivity]. }
  destruct (isBoardFull b) eqn:Hf.
  { exists b, m, d. split; [exact Hv|]. split; [lia|].
    rewrite (minimax_full b m d Hw Hf), Hw.
    split; [right; exact Hf | reflexivity]. }
  destruct (minimax_inner b m d Hw Hf) as (i & Hi & Hbest).
  apply firstBest_elem in Hbest.
  destruct (IH i (mark m) Hbest (negb m) (d + 1)%Z
              (visits_child root b m d i Hv Hw Hf Hbest))
    as (b' & m' & d' & Hv' & Hd & Hterm & Hs).
  exists b', m', d'. split; [exact Hv'|]. split; [lia|].
  split; [exact Hterm|]. rewrite Hi. exact Hs.
Qed.

(** C4. Take the search the selector starts on [root], that is
    [minimax(root, true, 0)], and a node [minimax(b, m, d)] it visits.
    Then [d] is the number of plies played from [root] to [b] (one empty
    cell is filled per ply).  At a terminal node the score is [10 - d]
    when O has won, [d - 10] when X has won and [0] for a full board
    without a winner.  At any other node [minimax] is its loop over the
    recursive calls, which are made on the children at depth [d + 1],
    and these are the nodes visited next; the score it returns is the
    terminal score, at its own depth, of a terminal node visited below.
    Past its early returns the selector returns the index of the search
    at [root]. *)
Theorem terminal_score_by_depth (root b : board) (m : bool) (d : Z) :
  visits root b m d ->
  Z.of_nat (length (availableMoves root))
  = (Z.of_nat (length (availableMoves b)) + d)%Z
  /\ (winner (getWinnerInfo b) = Some PlayerO ->
      minimax b m d = Some {| score := Num (10 - d); index := None |})
  /\ (winner (getWinnerInfo b) = Some PlayerX ->
      minimax b m d = Some {| score := Num (d - 10); index := None |})
  /\ (winner (getWinnerInfo b) = None -> isBoardFull b = true ->
      minimax b m d = Some {| score := Num 0; index := None |})
  /\ (winner (getWinnerInfo b) = None -> isBoardFull b = false ->
      minimax b m d
      = fold_left
          (loopStep m
             (fun idx =>
                minimax (setCell b idx (Some (mark m))) (negb m) (d + 1)))
          (availableMoves b)
          (Some {| score := worst m; index := head (availableMoves b) |})
      /\ forall idx, idx ∈ availableMoves b ->
           visits root (setCell b idx (Some (mark m))) (negb m) (d + 1))
  /\ (exists b' m' d',
        visits root b' m' d' /\ (d <= d')%Z
        /\ (winner (getWinnerInfo b') <> None \/ isBoardFull b' = true)
        /\ scoreZ (minimax b m d)
           = scoreTerminal (winner (getWinnerInfo b')) d')
  /\ (availableMoves root <> [] -> length (availableMoves root) <> 9 ->
      forall random,
        pickBestAiMove random root
        = match minimax root true 0 with
          | Some r => Some (indexToMove (index r))
          | None => None
          end).
Proof.
  intros Hv. split; [apply (visits_depth root b m d Hv)|].
  split; [|split; [|split; [|split; [|split]]]].
  - intros Hw. rewrite (minimax_won b m d _ Hw). reflexivity.
  - intros Hw. rewrite (minimax_won b m d _ Hw). reflexivity.
  - apply minimax_full.
  - intros Hw Hf. split; [exact (minimax_step b m d Hw Hf)|].
    intros idx Hidx. apply visits_child; assumption.
  - apply (visits_reaches_terminal root b m d Hv).
  - intros H0 H9 random. apply pickBestAiMove_search; assumption.
Qed.

Lemma terminal_score_by_depth_witness :
  let b := setCell boardOpenColumn 7 (Some PlayerO) in
  visits boardOpenColumn b false (0 + 1)%Z
  /\ winner (getWinnerInfo b) = Some PlayerO
  /\ minimax b false (0 + 1)%Z = Some {| score := Num 9; index := None |}
  /\ scoreZ (minimax boardOpenColumn true 0) = 9%Z.
Proof.
  intros b.
  assert (Hv : visits boardOpenColumn b false (0 + 1)%Z).
  { apply (visits_child boardOpenColumn boardOpenColumn true 0%Z 7 (visits_root _));
      [reflexivity | reflexivity | vm_compute; repeat constructor]. }
  split; [exact Hv|]. split; [reflexivity|]. split.
  - apply (proj1 (proj2 (terminal_score_by_depth boardOpenColumn b false
                           (0 + 1)%Z Hv))).
    reflexivity.
  - vm_compute. reflexivity.
Defined.

(** C3. At every board that is not terminal, every child returns an
    integer score and [minimax] returns a child move [i] with its score
    such that, in the enumeration order of [availableMoves]: at a
    maximizing node every move before [i] scores strictly lower and no
    move after [i] scores higher; at a minimizing node every move before
    [i] scores strictly higher and no move after [i] scores lower.  So
    the first of the best children wins a tie, and when all children tie
    the first available move is returned.  The selector, when it runs
    the search, returns that index. *)
Theorem minimax_returns_first_best (b : board) (m : bool) (depth : Z) :
  winner (getWinnerInfo b) = None -> isBoardFull b = false ->
  let sc := fun j =>
    scoreZ (minimax (setCell b j (Some (mark m))) (negb m) (depth + 1)) in
  (forall j, j ∈ availableMoves b ->
     exists r, minimax (setCell b j (Some (mark m))) (negb m) (depth + 1) = Some r
               /\ score r = Num (sc j))
  /\ exists i pre post,
       minimax b m depth = Some {| score := Num (sc i); index := Some i |}
       /\ availableMoves b = pre ++ i :: post
       /\ (if m
           then Forall (fun j => (sc j < sc i)%Z) pre
                /\ Forall (fun j => (sc j <= sc i)%Z) post
           else Forall (fun j => (sc i < sc j)%Z) pre
                /\ Forall (fun j => (sc i <= sc j)%Z) post)
       /\ ((forall j, j ∈ availableMoves b -> sc j = sc i) ->
           head (availableMoves b) = Some i)
       /\ (m = true -> depth = 0%Z -> length (availableMoves b) <> 9 ->
           forall random, pickBestAiMove random b = Some (MoveIndex i)).
Proof.
  intros Hw Hf sc. split; [exact (scored_children b m depth)|].
  destruct (minimax_inner b m depth Hw Hf) as (i & Hi & Hbest).
  pose proof Hbest as (pre & post & E & Hpre & Hpost).
  exists i, pre, post. split; [exact Hi|]. split; [exact E|]. split; [|split].
  - destruct m; simpl in Hpre, Hpost; (split; [exact Hpre|]);
      (eapply Forall_impl; [exact Hpost|]); simpl; intros j Hj;
      unfold sc, childResult in *; lia.
  - apply (firstBest_all_tie m _ _ _ Hbest).
  - intros -> -> H9 random.
    rewrite pickBestAiMove_search;
      [| apply availableMoves_nonempty, Hf | exact H9].
    rewrite Hi. reflexivity.
Qed.

Lemma minimax_returns_first_best_witness :
  minimax boardLastTwo true 0 = Some {| score := Num 0; index := Some 6 |}
  /\ pickBestAiMove 0 boardLastTwo = Some (MoveIndex 6).
Proof.
  destruct (minimax_returns_first_best boardLastTwo true 0 eq_refl eq_refl)
    as (_ & i & pre & post & Hi & E & _ & _ & Hpick).
  assert (H6 : minimax boardLastTwo true 0
               = Some {| score := Num 0; index := Some 6 |})
    by (vm_compute; reflexivity).
  rewrite H6 in Hi. injection Hi as _ <-.
  split; [exact H6|].
  apply Hpick; [reflexivity | reflexivity | vm_compute; lia].
Defined.

(** ** The selector *)

Lemma minimax_index_available b m depth r i :
  minimax b m depth = Some r -> index r = Some i -> i ∈ availableMoves b.
Proof.
  intros Hr Hi.
  destruct (winner (getWinnerInfo b)) as [w|] eqn:Hw.
  { rewrite (minimax_won b m depth w Hw) in Hr. injection Hr as <-. discriminate. }
  destruct (isBoardFull b) eqn:Hf.
  { rewrite (minimax_full b m depth Hw Hf) in Hr. injection Hr as <-. discriminate. }
  destruct (minimax_inner b m depth Hw Hf) as (i' & Hi' & Hbest).
  rewrite Hi' in Hr. injection Hr as <-. simpl in Hi. injection Hi as <-.
  eapply firstBest_elem, Hbest.
Qed.

Lemma availableMoves_length_le (b : board) :
  length (availableMoves b) <= length b.
Proof.
  unfold availableMoves. etransitivity; [apply length_filter|].
  rewrite length_seq. reflexivity.
Qed.

(** When as many moves are available as the board has cells, every cell
    is empty. *)
Lemma availableMoves_all (b : board) (i : nat) :
  length (availableMoves b) = length b -> i < length b -> b !! i = Some None.
Proof.
  intros Hlen Hi. apply elem_of_availableMoves.
  unfold availableMoves in *. apply list_elem_of_filter.
  assert (Hin : i ∈ seq 0 (length b)) by (apply elem_of_seq; lia).
  split; [|exact Hin].
  destruct (negb (truthy (cellAt b i))) eqn:E; [reflexivity|].
  pose proof (length_filter_lt
                (fun i => negb (truthy (cellAt b i)) = true)
                (seq 0 (length b)) i Hin) as Hlt.
  rewrite length_seq in Hlt. rewrite E in Hlt.
  specialize (Hlt ltac:(discriminate)). lia.
Qed.

Lemma preferred_lt (k i : nat) : preferred !! k = Some i -> i < 9.
Proof.
  intros H. do 9 (destruct k as [|k]; [injection H as <-; lia|]).
  discriminate.
Qed.

Lemma readAt_preferred_lt (k : Z) (i : nat) :
  readAt preferred k = Some i -> i < 9.
Proof.
  unfold readAt. destruct (k <? 0)%Z; [discriminate | apply preferred_lt].
Qed.

(** The index of the opening draw: a random value in [0, 1) times 3 has
    floor 0, 1 or 2. *)
Lemma opening_floor (random : Q) :
  (0 <= random < 1)%Q -> (0 <= Qfloor (random * 3) < 3)%Z.
Proof.
  intros [H0 H1]. split.
  - change 0%Z with (Qfloor 0). apply Qfloor_resp_le.
    apply Qmult_le_0_compat; [exact H0 | discriminate].
  - rewrite Zlt_Qlt. apply Qle_lt_trans with (random * 3)%Q; [apply Qfloor_le|].
    change (inject_Z 3) with (1 * 3)%Q.
    apply Qmult_lt_compat_r; [reflexivity | exact H1].
Qed.

(** Case analysis on the index of the opening draw, from
    [H : 0 <= random < 1]. *)
Ltac draw_cases random H :=
  let B := fresh "Hfloor" in
  let E := fresh "Hdraw" in
  pose proof (opening_floor random H) as B;
  assert (E : Qfloor (random * 3) = 0%Z
              \/ Qfloor (random * 3) = 1%Z
              \/ Qfloor (random * 3) = 2%Z) by lia;
  clear B; destruct E as [E | [E | E]].

(** Only the index of the draw matters. *)
Lemma pickBestAiMove_floor (random random' : Q) (b : board) :
  Qfloor (random * 3) = Qfloor (random' * 3) ->
  pickBestAiMove random b = pickBestAiMove random' b.
Proof. intros E. unfold pickBestAiMove. rewrite E. reflexivity. Qed.

Lemma pickBestAiMove_emptyBoard (random : Q) :
  pickBestAiMove random emptyBoard
  = Some (indexToMove (readAt preferred (Qfloor (random * 3)))).
Proof. reflexivity. Qed.

Lemma indexToMove_index o i : indexToMove o = MoveIndex i -> o = Some i.
Proof. destruct o; simpl; congruence. Qed.

(** C5. On every 9-cell board, an index returned by [pickBestAiMove]
    lies in [0, 8] and names a cell that is empty in the input board,
    whatever the random draw. *)
Theorem pickBestAiMove_index_is_empty_cell (random : Q) (b : board) (i : nat) :
  length b = 9 ->
  pickBestAiMove random b = Some (MoveIndex i) ->
  0 <= i <= 8 /\ b !! i = Some None.
Proof.
  intros Hlen Hpick. unfold pickBestAiMove in Hpick.
  destruct (Nat.eqb_spec (length (availableMoves b)) 0) as [_|_];
    [discriminate|].
  destruct (Nat.eqb_spec (length (availableMoves b)) 9) as [E9|_].
  - injection Hpick as Hp. apply indexToMove_index, readAt_preferred_lt in Hp.
    split; [lia|]. apply availableMoves_all; lia.
  - destruct (minimax b true 0) as [r|] eqn:Hr; [|discriminate].
    injection Hpick as Hp. apply indexToMove_index in Hp.
    pose proof (minimax_index_available b true 0 r i Hr Hp) as Hin.
    pose proof (availableMoves_lt b i Hin).
    split; [lia|]. apply elem_of_availableMoves, Hin.
Qed.

Lemma pickBestAiMove_index_is_empty_cell_witness :
  length boardOpenColumn = 9
  /\ pickBestAiMove 0 boardOpenColumn = Some (MoveIndex 7)
  /\ 0 <= 7 <= 8 /\ boardOpenColumn !! 7 = Some None.
Proof.
  split; [reflexivity|]. split; [vm_compute; reflexivity|].
  apply (pickBestAiMove_index_is_empty_cell 0 boardOpenColumn 7);
    [reflexivity | vm_compute; reflexivity].
Defined.

(** C6, as stated, fails: on a 9-cell board that is already won and
    still has empty cells, [minimax] returns at once without an [index]
    and [pickBestAiMove] evaluates to [undefined], which is neither
    [null] nor a cell index. *)
Lemma pickBestAiMove_won_board_no_index :
  length boardWonByX = 9
  /\ boardWonByX !! 5 = Some None
  /\ (forall random, pickBestAiMove random boardWonByX = Some MoveUndefined)
  /\ ~ (exists random i, pickBestAiMove random boardWonByX = Some (MoveIndex i)).
Proof.
  assert (H : forall random, pickBestAiMove random boardWonByX = Some MoveUndefined)
    by (intros random; reflexivity).
  repeat split; try exact H.
  intros (random & i & Hi). rewrite H in Hi. discriminate.
Qed.

(** C6, amended. [pickBestAiMove] returns [null] exactly when the board
    has no empty cell; on every board with at least one empty cell and
    no completed line it returns a cell index (for every value in [0, 1)
    of the random source). *)
Theorem pickBestAiMove_null_iff_full (random : Q) (b : board) :
  (pickBestAiMove random b = Some MoveNull <->
   forall i c, b !! i = Some c -> c <> None)
  /\ ((0 <= random < 1)%Q ->
      winner (getWinnerInfo b) = None ->
      (exists i, b !! i = Some None) ->
      exists i, pickBestAiMove random b = Some (MoveIndex i)).
Proof.
  split.
  - rewrite <- isBoardFull_true, isBoardFull_availableMoves.
    unfold pickBestAiMove.
    destruct (Nat.eqb_spec (length (availableMoves b)) 0) as [E0|N0].
    { split; [intros _ | reflexivity].
      destruct (availableMoves b); [reflexivity | discriminate]. }
    split.
    + destruct (length (availableMoves b) =? 9).
      * destruct (readAt preferred _); discriminate.
      * destruct (minimax b true 0) as [r|]; [|discriminate].
        destruct (index r); discriminate.
    + intros E. rewrite E in N0. simpl in N0. congruence.
  - intros Hrnd Hw He. apply isBoardFull_false in He.
    unfold pickBestAiMove.
    pose proof (availableMoves_nonempty b He) as Hne.
    destruct (Nat.eqb_spec (length (availableMoves b)) 0) as [E0|_].
    { destruct (availableMoves b); [congruence | discriminate]. }
    destruct (length (availableMoves b) =? 9).
    + draw_cases random Hrnd; rewrite Hdraw; eexists; reflexivity.
    + destruct (minimax_inner b true 0 Hw He) as (i & Hi & _).
      rewrite Hi. exists i. reflexivity.
Qed.

Lemma pickBestAiMove_null_iff_full_witness :
  (0 <= 3 # 4 < 1)%Q
  /\ winner (getWinnerInfo boardLastTwo) = None
  /\ boardLastTwo !! 6 = Some None
  /\ exists i, pickBestAiMove (3 # 4) boardLastTwo = Some (MoveIndex i).
Proof.
  split; [split; [discriminate | reflexivity]|].
  split; [reflexivity|]. split; [reflexivity|].
  apply (pickBestAiMove_null_iff_full (3 # 4) boardLastTwo);
    [split; [discriminate | reflexivity] | reflexivity | exists 6; reflexivity].
Defined.

(** ** The opening move *)

(** On the empty board the search itself would answer [0], which a
    draw of index 0 does not return: the draw does not consult it. *)
Lemma minimax_emptyBoard_max :
  minimax emptyBoard true 0 = Some {| score := Num 0; index := Some 0 |}.
Proof. vm_compute. reflexivity. Qed.

(** The three values of the random source used as examples: their
    products by 3 are 0, 3/2 and 9/4, which JavaScript numbers hold
    exactly. *)
Lemma example_draws :
  (0 <= 0 < 1)%Q /\ (0 <= 1 # 2 < 1)%Q /\ (0 <= 3 # 4 < 1)%Q.
Proof. repeat split; discriminate. Qed.

(** C8. On the empty board [pickBestAiMove] does not use the search: it
    returns the entry of the preference list at the index
    [Math.floor(Math.random() * 3)].  The list ranks the 9 cells center
    first, then the corners, then the edges.  For every value of the
    random source, a number at least 0 and below 1, the index is 0, 1 or
    2, so the move is one of the 3 highest-ranked entries: the center or
    a corner and never an edge (1, 3, 5, 7).  The three entries are
    distinct and each of them is returned for some value of the random
    source. *)
Theorem opening_move_from_top_three (random : Q) :
  (0 <= random < 1)%Q ->
  preferred = center :: corners ++ edges
  /\ (exists (k i : nat),
        Qfloor (random * 3) = Z.of_nat k /\ k < 3
        /\ pickBestAiMove random emptyBoard = Some (MoveIndex i)
        /\ preferred !! k = Some i
        /\ (i ∈ take 3 preferred)
        /\ (i = center \/ i ∈ corners)
        /\ (i ∉ edges))
  /\ NoDup (take 3 preferred)
  /\ (forall i, i ∈ take 3 preferred ->
       exists random', (0 <= random' < 1)%Q
                       /\ pickBestAiMove random' emptyBoard = Some (MoveIndex i)).
Proof.
  intros Hrnd. split; [reflexivity|]. split; [|split].
  - rewrite pickBestAiMove_emptyBoard.
    draw_cases random Hrnd; rewrite Hdraw;
      [exists 0, 4 | exists 1, 0 | exists 2, 2];
      (split; [reflexivity|]); (split; [lia|]); (split; [reflexivity|]);
      (split; [reflexivity|]);
      (split; [repeat constructor|]);
      (split; [first [left; reflexivity | right; repeat constructor]|]);
      unfold edges; rewrite !elem_of_cons, elem_of_nil; lia.
  - simpl. repeat constructor; rewrite ?elem_of_cons, ?elem_of_nil; lia.
  - simpl. intros i Hi. rewrite !elem_of_cons, elem_of_nil in Hi.
    destruct example_draws as (H0 & H1 & H2).
    destruct Hi as [-> | [-> | [-> | []]]];
      [exists 0%Q | exists (1 # 2)%Q | exists (3 # 4)%Q];
      (split; [assumption | reflexivity]).
Qed.

Lemma opening_move_from_top_three_witness :
  (0 <= 1 # 2 < 1)%Q /\ pickBestAiMove (1 # 2) emptyBoard = Some (MoveIndex 0).
Proof.
  assert (H : (0 <= 1 # 2 < 1)%Q) by (split; [discriminate | reflexivity]).
  split; [exact H|].
  destruct (opening_move_from_top_three (1 # 2) H)
    as (_ & (k & i & _ & _ & Hpick & _) & _).
  pose proof Hpick as Hc. vm_compute in Hc. injection Hc as <-. exact Hpick.
Defined.

(** C10. On the empty board the opening move is drawn from exactly the
    set {4, 0, 2}: for every value of the random source, a number at
    least 0 and below 1, the index [Math.floor(Math.random() * 3)] is
    below 3 and the move is one of these three, and each of them is
    returned for some value.  The bottom corners 6 and 8, ranked fourth
    and fifth in the preference list, are never returned. *)
Theorem opening_move_set_is_4_0_2 :
  (forall random, (0 <= random < 1)%Q ->
     (0 <= Qfloor (random * 3) < 3)%Z
     /\ exists i, pickBestAiMove random emptyBoard = Some (MoveIndex i)
                  /\ (i = 4 \/ i = 0 \/ i = 2) /\ i <> 6 /\ i <> 8)
  /\ (forall i, i = 4 \/ i = 0 \/ i = 2 ->
        exists random, (0 <= random < 1)%Q
                       /\ pickBestAiMove random emptyBoard = Some (MoveIndex i))
  /\ preferred !! 3 = Some 6 /\ preferred !! 4 = Some 8
  /\ 6 ∈ corners /\ 8 ∈ corners.
Proof.
  split; [|split].
  - intros random Hrnd. split; [apply opening_floor, Hrnd|].
    rewrite pickBestAiMove_emptyBoard.
    draw_cases random Hrnd; rewrite Hdraw;
      [exists 4 | exists 0 | exists 2]; (split; [reflexivity | lia]).
  - destruct example_draws as (H0 & H1 & H2).
    intros i [-> | [-> | ->]];
      [exists 0%Q | exists (1 # 2)%Q | exists (3 # 4)%Q];
      (split; [assumption | reflexivity]).
  - repeat split; try reflexivity; repeat constructor.
Qed.

Lemma opening_move_set_is_4_0_2_witness :
  (0 <= 3 # 4 < 1)%Q
  /\ (exists i, pickBestAiMove (3 # 4) emptyBoard = Some (MoveIndex i)
                /\ (i = 4 \/ i = 0 \/ i = 2) /\ i <> 6 /\ i <> 8)
  /\ (exists random, (0 <= random < 1)%Q
                     /\ pickBestAiMove random emptyBoard = Some (MoveIndex 0)).
Proof.
  assert (H : (0 <= 3 # 4 < 1)%Q) by (split; [discriminate | reflexivity]).
  split; [exact H|]. split.
  - apply (proj1 opening_move_set_is_4_0_2 (3 # 4) H).
  - apply (proj1 (proj2 opening_move_set_is_4_0_2) 0). right. left. reflexivity.
Defined.

(** ** Scores of the search and immediate threats *)

Lemma winner_Some_completes (b : board) (p : player) :
  winner (getWinnerInfo b) = Some p ->
  exists l, l ∈ WIN_LINES /\ completes b l p.
Proof.
  intros Hw. unfold getWinnerInfo in Hw.
  destruct (scanLines_split WIN_LINES b)
    as [Hall | (pre & l0 & post & p0 & E & Hpre & Hp0)].
  - rewrite (scanLines_none _ _ Hall) in Hw. discriminate.
  - rewrite E, (scanLines_app_skip _ _ _ Hpre), (scanLines_hit _ _ _ _ Hp0) in Hw.
    injection Hw as <-. exists l0. split; [|exact Hp0].
    rewrite E. apply elem_of_app. right. left.
Qed.

Lemma lookup_setCell_marker (b : board) (idx a : nat) (p q : player) :
  idx ∈ availableMoves b -> p <> q ->
  setCell b idx (Some q) !! a = Some (Some p) -> b !! a = Some (Some p).
Proof.
  intros Hin Hne. pose proof (availableMoves_lt b idx Hin) as Hlt.
  rewrite setCell_in_range by exact Hlt.
  destruct (decide (idx = a)) as [->|Hia].
  - rewrite list_lookup_insert_eq by exact Hlt. congruence.
  - rewrite list_lookup_insert_ne by exact Hia. auto.
Qed.

(** Writing a marker on an empty cell can only complete a line of that
    marker. *)
Lemma winner_setCell_same (b : board) (idx : nat) (p q : player) :
  winner (getWinnerInfo b) = None -> idx ∈ availableMoves b ->
  winner (getWinnerInfo (setCell b idx (Some q))) = Some p -> p = q.
Proof.
  intros Hw Hin Hp. destruct (decide (p = q)) as [E|Hne]; [exact E|].
  apply winner_Some_completes in Hp as (l & Hl & H1 & H2 & H3).
  exfalso. apply (proj1 (getWinnerInfo_None b) Hw l p Hl).
  repeat split; eapply lookup_setCell_marker; eassumption.
Qed.

(** The score [minimax] returns at depth [d] is the terminal score of an
    outcome [w] reached at some depth [d'] between [d] and [d] plus the
    number of empty cells; strictly below [d] when the node is not
    terminal. *)
Lemma minimax_score_terminal (b : board) :
  forall m d,
  exists w d',
    scoreZ (minimax b m d) = scoreTerminal w d'
    /\ (d <= d' <= d + Z.of_nat (length (availableMoves b)))%Z
    /\ (winner (getWinnerInfo b) = None -> isBoardFull b = false ->
        (d + 1 <= d')%Z).
Proof.
  induction b as [b IH] using board_empties_ind. intros m d.
  destruct (winner (getWinnerInfo b)) as [w|] eqn:Hw.
  { exists (Some w), d. rewrite (minimax_won b m d w Hw).
    split; [reflexivity|]. split; [lia | discriminate]. }
  destruct (isBoardFull b) eqn:Hf.
  { exists None, d. rewrite (minimax_full b m d Hw Hf).
    split; [reflexivity|]. split; [lia | discriminate]. }
  destruct (minimax_inner b m d Hw Hf) as (i & Hi & Hbest).
  apply firstBest_elem in Hbest.
  destruct (IH i (mark m) Hbest (negb m) (d + 1)%Z) as (w & d' & Hs & Hd & _).
  pose proof (availableMoves_setCell_length b i (mark m) Hbest) as Hlen.
  exists w, d'. rewrite Hi. split; [exact Hs|]. split; lia.
Qed.

Lemma opponentWinsNext_true (b : board) :
  opponentWinsNext b = true <->
  winner (getWinnerInfo b) = None
  /\ exists j, j ∈ availableMoves b
               /\ winner (getWinnerInfo (setCell b j (Some PlayerX))) = Some PlayerX.
Proof.
  unfold opponentWinsNext. rewrite andb_true_iff, existsb_exists. split.
  - intros [Hw (j & Hj & Hx)]. split.
    + destruct (winner (getWinnerInfo b)); [discriminate | reflexivity].
    + exists j. split; [apply list_elem_of_In, Hj|].
      destruct (winner (getWinnerInfo (setCell b j (Some PlayerX)))) as [[]|];
        congruence.
  - intros [Hw (j & Hj & Hx)]. rewrite Hw. split; [reflexivity|].
    exists j. split; [apply list_elem_of_In, Hj|]. rewrite Hx. reflexivity.
Qed.

(** A move after which the opponent wins at once scores at most -8. *)
Lemma threat_score_low (b : board) (i : nat) :
  opponentWinsNext (setCell b i (Some PlayerO)) = true ->
  (scoreZ (childResult b true 0 i) <= -8)%Z.
Proof.
  intros H. apply opponentWinsNext_true in H as (Hw & j & Hj & Hx).
  unfold childResult. simpl mark. simpl negb.
  set (bi := setCell b i (Some PlayerO)) in *.
  assert (Hf : isBoardFull bi = false).
  { apply isBoardFull_false. exists j. apply elem_of_availableMoves, Hj. }
  destruct (minimax_inner bi false (0 + 1)%Z Hw Hf) as (k & Hk & Hbest).
  rewrite Hk. simpl.
  assert (Hle : (scoreZ (childResult bi false (0 + 1) k)
                 <= scoreZ (childResult bi false (0 + 1) j))%Z).
  { destruct Hbest as (pre & post & E & Hpre & Hpost).
    rewrite E in Hj. rewrite Forall_forall in Hpre, Hpost.
    apply elem_of_app in Hj as [Hj|Hj].
    - specialize (Hpre j Hj). simpl in Hpre. lia.
    - apply elem_of_cons in Hj as [->|Hj]; [lia|].
      specialize (Hpost j Hj). simpl in Hpost. lia. }
  unfold childResult at 2 in Hle. simpl mark in Hle.
  rewrite (minimax_won _ _ _ _ Hx) in Hle. simpl in Hle. lia.
Qed.

(** A move of the AI on a 9-cell board that scores at most -8 lets the
    opponent win at once. *)
Lemma low_score_threat (b : board) (i : nat) :
  length b = 9 ->
  winner (getWinnerInfo b) = None ->
  i ∈ availableMoves b ->
  (scoreZ (childResult b true 0 i) <= -8)%Z ->
  opponentWinsNext (setCell b i (Some PlayerO)) = true.
Proof.
  intros Hlen Hw Hi Hs. unfold childResult in Hs. simpl mark in Hs. simpl negb in Hs.
  set (bi := setCell b i (Some PlayerO)) in *.
  assert (Hleni : length bi = 9)
    by (unfold bi; rewrite length_setCell; assumption).
  destruct (winner (getWinnerInfo bi)) as [w|] eqn:Hwi.
  { pose proof (winner_setCell_same b i w PlayerO Hw Hi Hwi) as ->.
    rewrite (minimax_won bi false _ _ Hwi) in Hs. simpl in Hs. lia. }
  destruct (isBoardFull bi) eqn:Hfi.
  { rewrite (minimax_full bi false _ Hwi Hfi) in Hs. simpl in Hs. lia. }
  destruct (minimax_inner bi false (0 + 1)%Z Hwi Hfi) as (k & Hk & Hbest).
  apply firstBest_elem in Hbest. rewrite Hk in Hs. simpl in Hs.
  apply opponentWinsNext_true. split; [exact Hwi|]. exists k. split; [exact Hbest|].
  unfold childResult in Hs. simpl mark in Hs. simpl negb in Hs.
  set (bk := setCell bi k (Some PlayerX)) in *.
  destruct (winner (getWinnerInfo bk)) as [[]|] eqn:Hwk; [reflexivity | |].
  - rewrite (minimax_won bk true _ _ Hwk) in Hs. simpl in Hs. lia.
  - exfalso.
    destruct (minimax_score_terminal bk true (0 + 1 + 1)%Z)
      as (w & d' & Hsc & Hd & Hinner).
    pose proof (availableMoves_length_le bk) as Hle.
    assert (Hlenk : length bk = 9)
      by (unfold bk; rewrite length_setCell; assumption).
    destruct (isBoardFull bk) eqn:Hfk.
    + rewrite (minimax_full bk true _ Hwk Hfk) in Hs. simpl in Hs. lia.
    + specialize (Hinner Hwk eq_refl). rewrite Hsc in Hs.
      destruct w as [[]|]; simpl in Hs; lia.
Qed.

Lemma firstBest_max_le sc moves i j :
  firstBest true sc moves i -> j ∈ moves -> (sc j <= sc i)%Z.
Proof.
  intros (pre & post & -> & Hpre & Hpost) Hj.
  rewrite Forall_forall in Hpre, Hpost.
  apply elem_of_app in Hj as [Hj|Hj].
  - specialize (Hpre j Hj). simpl in Hpre. lia.
  - apply elem_of_cons in Hj as [->|Hj]; [lia|].
    specialize (Hpost j Hj). simpl in Hpost. lia.
Qed.

Lemma all_empty_emptyBoard (b : board) :
  length b = 9 -> length (availableMoves b) = 9 -> b = emptyBoard.
Proof.
  intros Hlen Hall. apply list_eq. intros k. unfold emptyBoard.
  destruct (decide (k < 9)) as [Hk|Hk].
  - rewrite lookup_replicate_2 by exact Hk. apply availableMoves_all; lia.
  - rewrite (proj2 (lookup_ge_None b k)) by lia.
    symmetry. apply lookup_replicate_None. lia.
Qed.

(** C9. On the board [X,O,X, O,X,O, _,_,O] the selector returns 6, and
    on [X,O,_, X,O,_, _,_,_] it returns 7, which completes O's column
    (1,4,7).  In general, on a 9-cell board, when some available move
    [i'] leaves the opponent without an immediately winning reply, the
    move [i] the selector returns leaves the opponent without one
    too. *)
Theorem selector_avoids_immediate_loss :
  (forall random, pickBestAiMove random boardLastTwo = Some (MoveIndex 6))
  /\ (forall random, pickBestAiMove random boardOpenColumn = Some (MoveIndex 7))
  /\ completes (setCell boardOpenColumn 7 (Some PlayerO)) (1, 4, 7) PlayerO
  /\ (forall random (b : list (option player)) i i',
        length b = 9 ->
        pickBestAiMove random b = Some (MoveIndex i) ->
        i' ∈ availableMoves b ->
        opponentWinsNext (setCell b i' (Some PlayerO)) = false ->
        opponentWinsNext (setCell b i (Some PlayerO)) = false).
Proof.
  split; [intros random; vm_compute; reflexivity|].
  split; [intros random; vm_compute; reflexivity|].
  split; [repeat split|].
  intros random b i i' Hlen Hpick Hi' Hsafe.
  unfold pickBestAiMove in Hpick.
  destruct (Nat.eqb_spec (length (availableMoves b)) 0) as [_|_];
    [discriminate|].
  destruct (Nat.eqb_spec (length (availableMoves b)) 9) as [E9|_].
  - rewrite (all_empty_emptyBoard b Hlen E9).
    injection Hpick as Hp. apply indexToMove_index, readAt_preferred_lt in Hp.
    do 9 (destruct i as [|i]; [reflexivity|]). lia.
  - destruct (minimax b true 0) as [r|] eqn:Hr; [|discriminate].
    injection Hpick as Hp. apply indexToMove_index in Hp.
    destruct (winner (getWinnerInfo b)) as [w|] eqn:Hw.
    { rewrite (minimax_won b true 0 w Hw) in Hr. injection Hr as <-. discriminate. }
    destruct (isBoardFull b) eqn:Hf.
    { rewrite (minimax_full b true 0 Hw Hf) in Hr. injection Hr as <-. discriminate. }
    destruct (minimax_inner b true 0 Hw Hf) as (i0 & Hi0 & Hbest).
    rewrite Hi0 in Hr. injection Hr as <-. simpl in Hp. injection Hp as ->.
    destruct (opponentWinsNext (setCell b i (Some PlayerO))) eqn:Hthreat;
      [|reflexivity].
    apply threat_score_low in Hthreat.
    pose proof (firstBest_max_le _ _ _ _ Hbest Hi') as Hle. simpl in Hle.
    rewrite (low_score_threat b i' Hlen Hw Hi') in Hsafe by lia.
    discriminate.
Qed.

Lemma selector_avoids_immediate_loss_witness :
  length boardOpenColumn = 9
  /\ pickBestAiMove 0 boardOpenColumn = Some (MoveIndex 7)
  /\ 6 ∈ availableMoves boardOpenColumn
  /\ opponentWinsNext (setCell boardOpenColumn 6 (Some PlayerO)) = false
  /\ opponentWinsNext (setCell boardOpenColumn 2 (Some PlayerO)) = true
  /\ opponentWinsNext (setCell boardOpenColumn 7 (Some PlayerO)) = false.
Proof.
  assert (H6 : 6 ∈ availableMoves boardOpenColumn)
    by (vm_compute; repeat constructor).
  split; [reflexivity|]. split; [vm_compute; reflexivity|].
  split; [exact H6|]. split; [reflexivity|]. split; [reflexivity|].
  apply (proj2 (proj2 (proj2 selector_avoids_immediate_loss))
           0%Q boardOpenColumn 7 6);
    [reflexivity | vm_compute; reflexivity | exact H6 | reflexivity].
Defined.

(** ** Games between the two searches *)

Lemma playOut_X_first (random : Q) :
  playOut 9 random emptyBoard true
  = Some [Some PlayerX; Some PlayerX; Some PlayerO;
          Some PlayerO; Some PlayerO; Some PlayerX;
          Some PlayerX; Some PlayerO; Some PlayerX].
Proof. vm_compute. reflexivity. Qed.

Lemma aiTurn_floor (random random' : Q) (b : board) :
  Qfloor (random * 3) = Qfloor (random' * 3) ->
  aiTurn random b = aiTurn random' b.
Proof.
  intros E. unfold aiTurn. rewrite (pickBestAiMove_floor _ _ b E). reflexivity.
Qed.

Lemma playOut_floor (random random' : Q) :
  Qfloor (random * 3) = Qfloor (random' * 3) ->
  forall turns b x, playOut turns random b x = playOut turns random' b x.
Proof.
  intros E. induction turns as [|turns IH]; intros b x; [reflexivity|].
  cbn [playOut]. rewrite (aiTurn_floor _ _ b E).
  destruct (gameOver b); [reflexivity|].
  destruct (if x then opponentTurn b else aiTurn random' b); [apply IH | reflexivity].
Qed.

Lemma aiSurvives_floor (random random' : Q) :
  Qfloor (random * 3) = Qfloor (random' * 3) ->
  forall turns b x, aiSurvives turns random b x = aiSurvives turns random' b x.
Proof.
  intros E. induction turns as [|turns IH]; intros b x; [reflexivity|].
  cbn [aiSurvives]. rewrite (aiTurn_floor _ _ b E).
  destruct (winner (getWinnerInfo b)) as [[]|]; try reflexivity.
  destruct (isBoardFull b); [reflexivity|].
  destruct x.
  - induction (availableMoves b) as [|j l IHl]; [reflexivity|].
    simpl. rewrite IH, IHl. reflexivity.
  - destruct (aiTurn random' b); [apply IH | reflexivity].
Qed.

Lemma playOut_O_first (random : Q) :
  (0 <= random < 1)%Q ->
  exists b, playOut 9 random emptyBoard false = Some b
            /\ winner (getWinnerInfo b) = None /\ isDraw b = true.
Proof.
  intros Hrnd.
  draw_cases random Hrnd;
    [rewrite (playOut_floor random 0 Hdraw)
    |rewrite (playOut_floor random (1 # 2) Hdraw)
    |rewrite (playOut_floor random (3 # 4) Hdraw)];
    eexists; (split; [vm_compute; reflexivity | split; reflexivity]).
Qed.

Lemma aiSurvives_X_first (random : Q) : aiSurvives 9 random emptyBoard true = true.
Proof. vm_compute. reflexivity. Qed.

Lemma aiSurvives_O_first (random : Q) :
  (0 <= random < 1)%Q -> aiSurvives 9 random emptyBoard false = true.
Proof.
  intros Hrnd.
  draw_cases random Hrnd;
    [rewrite (aiSurvives_floor random 0 Hdraw)
    |rewrite (aiSurvives_floor random (1 # 2) Hdraw)
    |rewrite (aiSurvives_floor random (3 # 4) Hdraw)];
    vm_compute; reflexivity.
Qed.

(** C7. Starting from the empty board, when the AI (O) moves by
    [pickBestAiMove] and X moves by the minimizing search, the game ends
    in a draw: the final board is full and nobody has won.  This holds
    when X starts, as in the [App] component, and when O starts, for
    every value of the random source (the value 1/2 opens with cell 0,
    the move the search itself returns on the empty board).  Moreover the AI is not beaten
    by any play of X at all. *)
Theorem search_against_search_draws :
  (forall random,
     exists b, playOut 9 random emptyBoard true = Some b
               /\ winner (getWinnerInfo b) = None /\ isDraw b = true)
  /\ (forall random, (0 <= random < 1)%Q ->
       exists b, playOut 9 random emptyBoard false = Some b
                 /\ winner (getWinnerInfo b) = None /\ isDraw b = true)
  /\ (minimax emptyBoard true 0 = Some {| score := Num 0; index := Some 0 |}
      /\ pickBestAiMove (1 # 2) emptyBoard = Some (MoveIndex 0))
  /\ (forall random, aiSurvives 9 random emptyBoard true = true)
  /\ (forall random, (0 <= random < 1)%Q ->
       aiSurvives 9 random emptyBoard false = true).
Proof.
  split; [|split; [|split; [|split]]].
  - intros random. eexists. split; [apply playOut_X_first|].
    split; reflexivity.
  - exact playOut_O_first.
  - split; [exact minimax_emptyBoard_max | reflexivity].
  - exact aiSurvives_X_first.
  - exact aiSurvives_O_first.
Qed.

Lemma search_against_search_draws_witness :
  (0 <= 1 # 2 < 1)%Q
  /\ exists b, playOut 9 (1 # 2) emptyBoard false = Some b
               /\ winner (getWinnerInfo b) = None /\ isDraw b = true.
Proof.
  assert (H : (0 <= 1 # 2 < 1)%Q) by (split; [discriminate | reflexivity]).
  split; [exact H|].
  apply (proj1 (proj2 search_against_search_draws) (1 # 2) H).
Defined.

(** ** More on the evaluator and the search *)

Lemma StronglySorted_lt_seq (a n : nat) : StronglySorted lt (seq a n).
Proof.
  revert a. induction n as [|n IH]; intros a; simpl; constructor.
  - apply IH.
  - apply Forall_forall. intros j Hj. apply elem_of_seq in Hj. lia.
Qed.

Lemma StronglySorted_lt_filter (P : nat -> Prop) `{!forall x, Decision (P x)}
    (l : list nat) :
  StronglySorted lt l -> StronglySorted lt (filter P l).
Proof.
  induction 1 as [|x l Hs IH Hx]; [constructor|].
  rewrite filter_cons. destruct (decide (P x)); [|exact IH].
  constructor; [exact IH|].
  apply Forall_forall. intros j Hj. apply list_elem_of_filter in Hj as [_ Hj].
  rewrite Forall_forall in Hx. apply Hx, Hj.
Qed.

(** The line [getWinnerInfo] reports is one of [WIN_LINES], completed by
    the reported winner. *)
Lemma reported_line (b : board) (l : nat * nat * nat) :
  line (getWinnerInfo b) = Some l ->
  l ∈ WIN_LINES
  /\ exists p, winner (getWinnerInfo b) = Some p /\ completes b l p.
Proof.
  unfold getWinnerInfo.
  destruct (scanLines_split WIN_LINES b)
    as [Hall | (pre & l0 & post & p0 & E & Hpre & Hp0)].
  - rewrite (scanLines_none _ _ Hall). discriminate.
  - assert (Hg : scanLines WIN_LINES b = {| winner := Some p0; line := Some l0 |})
      by (rewrite E, (scanLines_app_skip _ _ _ Hpre); apply scanLines_hit, Hp0).
    rewrite Hg. simpl. intros [= <-]. split.
    + rewrite E. apply elem_of_app. right. left.
    + exists p0. split; [reflexivity | exact Hp0].
Qed.

Lemma no_line_no_winner (b : board) :
  line (getWinnerInfo b) = None -> winner (getWinnerInfo b) = None.
Proof.
  unfold getWinnerInfo.
  destruct (scanLines_split WIN_LINES b)
    as [Hall | (pre & l0 & post & p0 & E & Hpre & Hp0)].
  - rewrite (scanLines_none _ _ Hall). reflexivity.
  - rewrite E, (scanLines_app_skip _ _ _ Hpre), (scanLines_hit _ _ _ _ Hp0).
    discriminate.
Qed.

(** X1. [getWinnerInfo] never reports a winner without a line or a line
    without a winner, and a reported line is one of [WIN_LINES] whose
    three cells hold the reported winner's marker. *)
Theorem getWinnerInfo_sound (b : board) :
  (winner (getWinnerInfo b) = None <-> line (getWinnerInfo b) = None)
  /\ (forall l, line (getWinnerInfo b) = Some l ->
        l ∈ WIN_LINES
        /\ exists p, winner (getWinnerInfo b) = Some p /\ completes b l p).
Proof.
  split; [|apply reported_line]. split.
  - intros Hw. destruct (line (getWinnerInfo b)) as [l|] eqn:Hl; [|reflexivity].
    apply reported_line in Hl as (_ & p & Hp & _). congruence.
  - apply no_line_no_winner.
Qed.

Lemma getWinnerInfo_sound_witness :
  line (getWinnerInfo boardWonByX) = Some (0, 1, 2)
  /\ (0, 1, 2) ∈ WIN_LINES
  /\ exists p, winner (getWinnerInfo boardWonByX) = Some p
               /\ completes boardWonByX (0, 1, 2) p.
Proof.
  split; [reflexivity|].
  apply (proj2 (getWinnerInfo_sound boardWonByX) (0, 1, 2)). reflexivity.
Defined.

(** X2. [availableMoves] lists exactly the indices of the empty cells,
    each once and in strictly ascending order; it is empty exactly when
    [isBoardFull] holds. *)
Theorem availableMoves_sorted_empties (b : board) :
  (forall i, i ∈ availableMoves b <-> b !! i = Some None)
  /\ StronglySorted lt (availableMoves b)
  /\ NoDup (availableMoves b)
  /\ (availableMoves b = [] <-> isBoardFull b = true).
Proof.
  split; [apply elem_of_availableMoves|].
  split; [apply StronglySorted_lt_filter, StronglySorted_lt_seq|].
  split; [apply availableMoves_NoDup|].
  symmetry. apply isBoardFull_availableMoves.
Qed.

(** X3. [minimax] returns on every board, with an integer score: the
    infinities the loops start from never leave them.  The result has no
    [index] exactly when the board is terminal (won or full), and an
    [index] it has is an available move. *)
Theorem minimax_finite_score (b : board) (m : bool) (depth : Z) :
  exists z i,
    minimax b m depth = Some {| score := Num z; index := i |}
    /\ (i = None <->
        winner (getWinnerInfo b) <> None \/ isBoardFull b = true)
    /\ (forall k, i = Some k -> k ∈ availableMoves b).
Proof.
  destruct (winner (getWinnerInfo b)) as [w|] eqn:Hw.
  { rewrite (minimax_won b m depth w Hw). eexists _, None.
    split; [reflexivity|]. split; [|discriminate].
    split; [left; discriminate | reflexivity]. }
  destruct (isBoardFull b) eqn:Hf.
  { rewrite (minimax_full b m depth Hw Hf). eexists _, None.
    split; [reflexivity|]. split; [|discriminate].
    split; [right; reflexivity | reflexivity]. }
  destruct (minimax_inner b m depth Hw Hf) as (i & Hi & Hbest).
  rewrite Hi. eexists _, (Some i). split; [reflexivity|]. split.
  - split; [discriminate|]. intros [H|H]; congruence.
  - intros k [= <-]. eapply firstBest_elem, Hbest.
Qed.

(** X4. On a 9-cell board the score the search of the selector returns,
    [minimax(board, true, 0)], is the terminal score of a terminal node
    of its own search tree, at that node's depth [d'], which is at most
    9.  So the score lies between -10 and 10 and its sign tells how that
    line of play ends: positive exactly when O has won there, negative
    exactly when X has won there, zero exactly when nobody has. *)
Theorem minimax_root_score_range (b : board) :
  length b = 9 ->
  exists b' m' d',
    visits b b' m' d'
    /\ (winner (getWinnerInfo b') <> None \/ isBoardFull b' = true)
    /\ (0 <= d' <= 9)%Z
    /\ scoreZ (minimax b true 0) = scoreTerminal (winner (getWinnerInfo b')) d'
    /\ (-10 <= scoreZ (minimax b true 0) <= 10)%Z
    /\ ((0 < scoreZ (minimax b true 0))%Z <->
        winner (getWinnerInfo b') = Some PlayerO)
    /\ ((scoreZ (minimax b true 0) < 0)%Z <->
        winner (getWinnerInfo b') = Some PlayerX)
    /\ (scoreZ (minimax b true 0) = 0%Z <->
        winner (getWinnerInfo b') = None).
Proof.
  intros Hlen.
  destruct (visits_reaches_terminal b b true 0%Z (visits_root b))
    as (b' & m' & d' & Hv & Hd & Hterm & Hs).
  pose proof (visits_depth b b' m' d' Hv) as Hplies.
  pose proof (availableMoves_length_le b) as Hle.
  exists b', m', d'. split; [exact Hv|]. split; [exact Hterm|].
  split; [lia|]. split; [exact Hs|]. rewrite Hs.
  destruct (winner (getWinnerInfo b')) as [[]|]; simpl;
    (split; [lia|]); repeat split;
    intros H; try discriminate; try reflexivity; try lia.
Qed.

Lemma minimax_root_score_range_witness :
  length boardOpenColumn = 9
  /\ scoreZ (minimax boardOpenColumn true 0) = 9%Z
  /\ exists b' m' d',
       visits boardOpenColumn b' m' d'
       /\ (0 <= d' <= 9)%Z
       /\ scoreZ (minimax boardOpenColumn true 0)
          = scoreTerminal (winner (getWinnerInfo b')) d'
       /\ ((0 < scoreZ (minimax boardOpenColumn true 0))%Z <->
           winner (getWinnerInfo b') = Some PlayerO).
Proof.
  split; [reflexivity|]. split; [vm_compute; reflexivity|].
  destruct (minimax_root_score_range boardOpenColumn eq_refl)
    as (b' & m' & d' & Hv & _ & Hd & Hs & _ & Hpos & _).
  exists b', m', d'. split; [exact Hv|]. split; [exact Hd|].
  split; [exact Hs | exact Hpos].
Defined.

(** X5. When the AI has a move that completes a line of O at once, the
    move [pickBestAiMove] returns completes a line of O at once. *)
Theorem selector_takes_immediate_win (random : Q) (b : board) (i i' : nat) :
  length b = 9 ->
  pickBestAiMove random b = Some (MoveIndex i) ->
  i' ∈ availableMoves b ->
  winner (getWinnerInfo (setCell b i' (Some PlayerO))) = Some PlayerO ->
  winner (getWinnerInfo (setCell b i (Some PlayerO))) = Some PlayerO.
Proof.
  intros Hlen Hpick Hi' Hwin. unfold pickBestAiMove in Hpick.
  destruct (Nat.eqb_spec (length (availableMoves b)) 0) as [_|_];
    [discriminate|].
  destruct (Nat.eqb_spec (length (availableMoves b)) 9) as [E9|_].
  { rewrite (all_empty_emptyBoard b Hlen E9) in Hi', Hwin.
    apply availableMoves_lt in Hi'. exfalso. revert Hwin.
    do 9 (destruct i' as [|i']; [discriminate|]).
    simpl in Hi'. lia. }
  destruct (minimax b true 0) as [r|] eqn:Hr; [|discriminate].
  injection Hpick as Hp. apply indexToMove_index in Hp.
  destruct (winner (getWinnerInfo b)) as [w|] eqn:Hw.
  { rewrite (minimax_won b true 0 w Hw) in Hr. injection Hr as <-. discriminate. }
  destruct (isBoardFull b) eqn:Hf.
  { rewrite (minimax_full b true 0 Hw Hf) in Hr. injection Hr as <-. discriminate. }
  destruct (minimax_inner b true 0 Hw Hf) as (i0 & Hi0 & Hbest).
  rewrite Hi0 in Hr. injection Hr as <-. simpl in Hp. injection Hp as ->.
  pose proof (firstBest_max_le _ _ _ _ Hbest Hi') as Hle. simpl in Hle.
  pose proof (firstBest_elem _ _ _ _ Hbest) as Hi.
  unfold childResult in Hle. simpl mark in Hle. simpl negb in Hle.
  rewrite (minimax_won _ false _ _ Hwin) in Hle. simpl in Hle.
  set (bi := setCell b i (Some PlayerO)) in *.
  destruct (minimax_score_terminal bi false (0 + 1)%Z)
    as (w & d' & Hs & Hd & Hinner).
  pose proof (availableMoves_length_le bi) as Hlei.
  assert (Hleni : length bi = 9)
    by (unfold bi; rewrite length_setCell; assumption).
  destruct (winner (getWinnerInfo bi)) as [[]|] eqn:Hwi; [| reflexivity |].
  - rewrite (minimax_won bi false _ _ Hwi) in Hle. simpl in Hle. lia.
  - exfalso. destruct (isBoardFull bi) eqn:Hfi.
    + rewrite (minimax_full bi false _ Hwi Hfi) in Hle. simpl in Hle. lia.
    + specialize (Hinner eq_refl eq_refl). rewrite Hs in Hle.
      destruct w as [[]|]; simpl in Hle; lia.
Qed.

Lemma selector_takes_immediate_win_witness :
  length boardOpenColumn = 9
  /\ pickBestAiMove 0 boardOpenColumn = Some (MoveIndex 7)
  /\ winner (getWinnerInfo (setCell boardOpenColumn 7 (Some PlayerO)))
     = Some PlayerO.
Proof.
  split; [reflexivity|]. split; [vm_compute; reflexivity|].
  apply (selector_takes_immediate_win 0 boardOpenColumn 7 7);
    [reflexivity | vm_compute; reflexivity
     | vm_compute; repeat constructor | reflexivity].
Defined.

(** ** The [App] component: what play keeps *)

Lemma gameOver_false (b : board) :
  gameOver b = false <->
  winner (getWinnerInfo b) = None /\ isBoardFull b = false.
Proof.
  unfold gameOver, isDraw.
  destruct (winner (getWinnerInfo b)); simpl;
    [split; [discriminate | intros [H _]; discriminate]|].
  destruct (isBoardFull b); split; auto; intros [_ H]; discriminate.
Qed.

Lemma falsy_in_range (b : board) (i : nat) :
  i < length b -> truthy (cellAt b i) = false -> b !! i = Some None.
Proof.
  intros Hi Ht. unfold cellAt in Ht.
  destruct (lookup_lt_is_Some_2 b i Hi) as [c Hc]. rewrite Hc in Ht |- *.
  destruct c; [discriminate | reflexivity].
Qed.

Lemma countMarker_insert (p q : player) (b : board) (i : nat) :
  b !! i = Some None ->
  countMarker p (<[i := Some q]> b)
  = countMarker p b + (if decide (p = q) then 1 else 0).
Proof.
  unfold countMarker. revert i. induction b as [|c b IH]; intros i Hi.
  - destruct i; discriminate.
  - destruct i as [|i]; simpl in Hi |- *.
    + injection Hi as ->. rewrite !filter_cons.
      destruct (decide (None = Some p)) as [E|_]; [discriminate|].
      destruct (decide (Some q = Some p)) as [E|N];
        destruct (decide (p = q)) as [E'|N']; simpl; try lia; congruence.
    + rewrite !filter_cons. specialize (IH i Hi).
      destruct (decide (c = Some p)); simpl; lia.
Qed.

Lemma countMarker_setCell (p q : player) (b : board) (i : nat) :
  b !! i = Some None ->
  countMarker p (setCell b i (Some q))
  = countMarker p b + (if decide (p = q) then 1 else 0).
Proof.
  intros Hi. rewrite setCell_in_range by (apply lookup_lt_is_Some_1; eauto).
  apply countMarker_insert, Hi.
Qed.

Lemma countMarker_positive (p : player) (b : board) :
  0 < countMarker p b -> exists i, b !! i = Some (Some p).
Proof.
  unfold countMarker. intros H.
  destruct (filter (fun c => c = Some p) b) as [|c l] eqn:E; [simpl in H; lia|].
  assert (Hc : c ∈ filter (fun c => c = Some p) b) by (rewrite E; left).
  apply list_elem_of_filter in Hc as [-> Hc].
  apply list_elem_of_lookup_1, Hc.
Qed.

(** A board that holds a marker does not offer every cell. *)
Lemma marker_not_all_available (p : player) (b : board) :
  0 < countMarker p b -> length (availableMoves b) < length b.
Proof.
  intros H. apply countMarker_positive in H as [i Hi].
  unfold availableMoves.
  pose proof (length_filter_lt
                (fun i => negb (truthy (cellAt b i)) = true)
                (seq 0 (length b)) i) as Hlt.
  rewrite length_seq in Hlt. apply Hlt.
  - apply elem_of_seq. split; [lia|]. simpl. apply lookup_lt_is_Some_1. eauto.
  - rewrite (cellAt_lookup _ _ _ Hi). simpl. discriminate.
Qed.

Lemma completes_emptyBoard l p : ~ completes emptyBoard l p.
Proof.
  intros [H _]. unfold emptyBoard in H.
  apply lookup_replicate in H as [H _]. discriminate.
Qed.

Lemma singleWinner_emptyBoard : singleWinner emptyBoard.
Proof. intros l l' p q _ _ H. destruct (completes_emptyBoard _ _ H). Qed.

(** Writing a marker on an empty cell of a board without a completed
    line leaves at most that marker with completed lines. *)
Lemma singleWinner_setCell (b : board) (i : nat) (mk : player) :
  winner (getWinnerInfo b) = None -> i ∈ availableMoves b ->
  singleWinner (setCell b i (Some mk)).
Proof.
  intros Hw Hi.
  assert (H : forall l p, l ∈ WIN_LINES ->
                          completes (setCell b i (Some mk)) l p -> p = mk).
  { intros l p Hl (H1 & H2 & H3).
    destruct (decide (p = mk)) as [E|Hne]; [exact E|].
    exfalso. apply (proj1 (getWinnerInfo_None b) Hw l p Hl).
    repeat split; eapply lookup_setCell_marker; eassumption. }
  intros l l' p q Hl Hl' Hp Hq.
  rewrite (H l p Hl Hp), (H l' q Hl' Hq). reflexivity.
Qed.

(** On a live 9-cell board the AI's turn writes O on an empty cell,
    provided the board is not entirely empty or the random value is in
    range. *)
Lemma aiTurn_live (random : Q) (b : board) :
  length b = 9 -> gameOver b = false ->
  length (availableMoves b) <> 9 \/ (0 <= random < 1)%Q ->
  exists i, i ∈ availableMoves b
            /\ aiTurn random b = Some (setCell b i (Some PlayerO)).
Proof.
  intros Hlen Hlive Hrnd. apply gameOver_false in Hlive as [Hw Hf].
  pose proof (availableMoves_nonempty b Hf) as Hne.
  assert (Hgo : forall i, i ∈ availableMoves b ->
                          pickBestAiMove random b = Some (MoveIndex i) ->
                          exists i, i ∈ availableMoves b
                            /\ aiTurn random b = Some (setCell b i (Some PlayerO))).
  { intros i Hi Hp. exists i. split; [exact Hi|]. unfold aiTurn. rewrite Hp.
    apply elem_of_availableMoves in Hi. rewrite (cellAt_lookup _ _ _ Hi).
    reflexivity. }
  unfold pickBestAiMove in Hgo |- *.
  destruct (Nat.eqb_spec (length (availableMoves b)) 0) as [E0|_].
  { destruct (availableMoves b); [congruence | discriminate]. }
  destruct (Nat.eqb_spec (length (availableMoves b)) 9) as [E9|N9].
  - destruct Hrnd as [Hrnd|Hrnd]; [congruence|].
    assert (Hi : exists i, readAt preferred (Qfloor (random * 3)) = Some i)
      by (draw_cases random Hrnd; rewrite Hdraw; eexists; reflexivity).
    destruct Hi as [i Hi]. apply (Hgo i).
    + apply elem_of_availableMoves, availableMoves_all; [lia|].
      apply readAt_preferred_lt in Hi. lia.
    + rewrite Hi. reflexivity.
  - destruct (minimax_inner b true 0 Hw Hf) as (i & Hi & Hbest).
    apply (Hgo i); [eapply firstBest_elem, Hbest|].
    rewrite Hi. reflexivity.
Qed.

(** Off the empty board [pickBestAiMove] does not read the draw. *)
Lemma pickBestAiMove_draw_irrelevant (random random' : Q) (b : board) :
  length (availableMoves b) <> 9 ->
  pickBestAiMove random b = pickBestAiMove random' b.
Proof.
  intros N9. unfold pickBestAiMove.
  destruct (Nat.eqb_spec (length (availableMoves b)) 9); [congruence|].
  reflexivity.
Qed.

(** The three facts play keeps: the board has 9 cells, the marker counts
    alternate and at most one marker has completed lines. *)
Lemma placing_keeps (st : appState) (i : nat) :
  length (squares st) = 9 -> alternates st -> gameOver (squares st) = false ->
  i ∈ availableMoves (squares st) ->
  let st' := {| mode := mode st;
                squares := setCell (squares st) i
                             (Some (if xIsNext st then PlayerX else PlayerO));
                xIsNext := negb (xIsNext st) |} in
  length (squares st') = 9 /\ alternates st' /\ singleWinner (squares st').
Proof.
  intros Hlen Halt Hlive Hi. simpl. split; [|split].
  - rewrite length_setCell; assumption.
  - unfold alternates in *. simpl.
    apply elem_of_availableMoves in Hi.
    rewrite !countMarker_setCell by exact Hi.
    destruct (xIsNext st); simpl in *;
      repeat (destruct (decide _) as [?|?]; try congruence); lia.
  - apply gameOver_false in Hlive as [Hw _].
    apply singleWinner_setCell; assumption.
Qed.

Lemma reachable_keeps (st : appState) :
  reachable st ->
  length (squares st) = 9 /\ alternates st /\ singleWinner (squares st).
Proof.
  induction 1 as [|st m _ _|st toMenu _ _|st i _ (Hlen & Halt & Hsw) Hi
                  |st random _ (Hlen & Halt & Hsw)].
  - split; [reflexivity|]. split; [reflexivity | apply singleWinner_emptyBoard].
  - split; [reflexivity|]. split; [reflexivity | apply singleWinner_emptyBoard].
  - split; [reflexivity|]. split; [reflexivity | apply singleWinner_emptyBoard].
  - unfold handleSquareClick.
    destruct (gameOver (squares st)) eqn:Hlive; [auto|].
    destruct (truthy (cellAt (squares st) i)) eqn:Ht; [auto|].
    destruct (isAiMode (mode st) && negb (xIsNext st)); [auto|].
    apply placing_keeps; try assumption.
    apply elem_of_availableMoves, falsy_in_range; assumption.
  - unfold aiEffect.
    destruct (negb (isAiMode (mode st))); [auto|].
    destruct (gameOver (squares st)) eqn:Hlive; [auto|].
    destruct (xIsNext st) eqn:Hx; [auto|].
    destruct (aiTurn_live random (squares st) Hlen Hlive) as (i & Hi & Hturn).
    { left. unfold alternates in Halt. rewrite Hx in Halt.
      pose proof (marker_not_all_available PlayerX (squares st)). lia. }
    rewrite Hturn.
    pose proof (placing_keeps st i Hlen Halt Hlive Hi) as Hk.
    rewrite Hx in Hk. exact Hk.
Qed.

(** The events a rendered component can receive: a click needs one of
    the 9 squares. *)
Lemma reachable_steps (evs : list event) :
  forall st,
    reachable st ->
    Forall (fun ev => match ev with Click i => i < 9 | _ => True end) evs ->
    reachable (fold_left step evs st).
Proof.
  induction evs as [|ev evs IH]; intros st Hr Hevs; [exact Hr|].
  apply Forall_cons in Hevs as [Hev Hevs]. simpl. apply IH; [|exact Hevs].
  destruct ev as [m|t|i|random]; simpl.
  - apply reachable_start, Hr.
  - apply reachable_reset, Hr.
  - apply reachable_click; [exact Hr|].
    destruct (reachable_keeps st Hr) as (Hlen & _). lia.
  - apply reachable_ai, Hr.
Qed.

(** X6. In every state the component can reach the board has 9 cells,
    and it holds as many X as O when X is to move and one X more when O
    is to move. *)
Theorem reachable_counts_alternate (st : appState) :
  reachable st ->
  length (squares st) = 9
  /\ countMarker PlayerX (squares st)
     = countMarker PlayerO (squares st) + (if xIsNext st then 0 else 1).
Proof.
  intros H. apply reachable_keeps in H as (Hlen & Halt & _).
  split; assumption.
Qed.

Lemma reachable_counts_alternate_witness :
  let st := handleSquareClick 4 (startMode Pvp initialState) in
  reachable st
  /\ length (squares st) = 9
  /\ countMarker PlayerX (squares st)
     = countMarker PlayerO (squares st) + (if xIsNext st then 0 else 1).
Proof.
  intros st.
  assert (Hr : reachable st).
  { apply reachable_click; [apply reachable_start, reachable_initial|].
    simpl. lia. }
  split; [exact Hr|]. apply (reachable_counts_alternate st Hr).
Defined.

(** X7. In every state the component can reach, the completed lines of
    the board all hold the same marker: X and O never both have a
    completed line, so the line [getWinnerInfo] reports belongs to the
    only winner there is. *)
Theorem reachable_single_winner (st : appState) (l l' : nat * nat * nat)
    (p q : player) :
  reachable st ->
  l ∈ WIN_LINES -> l' ∈ WIN_LINES ->
  completes (squares st) l p -> completes (squares st) l' q ->
  p = q /\ winner (getWinnerInfo (squares st)) = Some p.
Proof.
  intros H Hl Hl' Hp Hq. apply reachable_keeps in H as (_ & _ & Hsw).
  split; [exact (Hsw l l' p q Hl Hl' Hp Hq)|].
  destruct (winner (getWinnerInfo (squares st))) as [w|] eqn:Hw.
  - apply winner_Some_completes in Hw as (l0 & Hl0 & Hw).
    f_equal. exact (Hsw l0 l w p Hl0 Hl Hw Hp).
  - destruct (proj1 (getWinnerInfo_None (squares st)) Hw l p Hl Hp).
Qed.

Lemma reachable_single_winner_witness :
  let st :=
    fold_left step [StartMode Pvp; Click 0; Click 3; Click 1; Click 4; Click 2]
      initialState in
  reachable st
  /\ completes (squares st) (0, 1, 2) PlayerX
  /\ winner (getWinnerInfo (squares st)) = Some PlayerX.
Proof.
  intros st.
  assert (Hr : reachable st).
  { apply reachable_steps; [apply reachable_initial|].
    repeat constructor; lia. }
  split; [exact Hr|]. split; [repeat split|].
  apply (reachable_single_winner st (0, 1, 2) (0, 1, 2) PlayerX PlayerX Hr);
    try (unfold WIN_LINES; repeat constructor); repeat split.
Defined.

Lemma lookup_setCell_kept (b : board) (i j : nat) (v : option player)
    (p : player) :
  truthy (cellAt b i) = false -> b !! j = Some (Some p) ->
  setCell b i v !! j = Some (Some p).
Proof.
  intros Ht Hj. unfold setCell.
  assert (Hne : i <> j).
  { intros ->. rewrite (cellAt_lookup _ _ _ Hj) in Ht. discriminate. }
  destruct (Nat.ltb_spec i (length b)).
  - rewrite list_lookup_insert_ne by exact Hne. exact Hj.
  - rewrite lookup_app_l by (apply lookup_lt_is_Some_1; eauto). exact Hj.
Qed.

Lemma aiTurn_kept (random : Q) (b b' : board) (j : nat) (p : player) :
  aiTurn random b = Some b' -> b !! j = Some (Some p) -> b' !! j = Some (Some p).
Proof.
  unfold aiTurn. intros H Hj.
  destruct (pickBestAiMove random b) as [[| |i]|]; try discriminate.
  - injection H as <-. exact Hj.
  - destruct (truthy (cellAt b i)) eqn:Ht; [discriminate|].
    injection H as <-. apply lookup_setCell_kept; assumption.
Qed.

(** X8. A click or a move of the AI never changes a cell that holds a
    marker: whichever index is clicked, in whatever state, every marker
    on the board stays where it is (only the two reset paths clear
    cells). *)
Theorem moves_keep_markers (st : appState) (ev : event) (j : nat) (p : player) :
  isMove ev = true ->
  squares st !! j = Some (Some p) ->
  squares (step st ev) !! j = Some (Some p).
Proof.
  intros Hev Hj. destruct ev as [m|t|i|random]; try discriminate; simpl.
  - unfold handleSquareClick.
    destruct (gameOver (squares st)); [exact Hj|].
    destruct (truthy (cellAt (squares st) i)) eqn:Ht; [exact Hj|].
    destruct (isAiMode (mode st) && negb (xIsNext st)); [exact Hj|].
    simpl. apply lookup_setCell_kept; assumption.
  - unfold aiEffect.
    destruct (negb (isAiMode (mode st))); [exact Hj|].
    destruct (gameOver (squares st)); [exact Hj|].
    destruct (xIsNext st); [exact Hj|].
    destruct (aiTurn random (squares st)) as [b'|] eqn:Hturn; [|exact Hj].
    simpl. eapply aiTurn_kept; eassumption.
Qed.

Lemma moves_keep_markers_witness :
  let st := handleSquareClick 4 (startMode Ai initialState) in
  squares st !! 4 = Some (Some PlayerX)
  /\ squares (step st (AiMove 0)) !! 4 = Some (Some PlayerX)
  /\ squares (step st (Click 4)) !! 4 = Some (Some PlayerX).
Proof.
  intros st. split; [reflexivity|]. split.
  - apply (moves_keep_markers st (AiMove 0) 4 PlayerX); reflexivity.
  - apply (moves_keep_markers st (Click 4) 4 PlayerX); reflexivity.
Defined.

Lemma squareDisabled_false (st : appState) :
  squareDisabled st = false <->
  gameOver (squares st) = false
  /\ isAiMode (mode st) && negb (xIsNext st) = false.
Proof.
  unfold squareDisabled, gameOver.
  destruct (truthy (winner (getWinnerInfo (squares st))) || isDraw (squares st));
    simpl; [split; [discriminate | intros [H _]; discriminate]|].
  split; [auto | intros [_ H]; exact H].
Qed.

(** X9. The click handler and the [disabled] property of the squares
    agree: a click changes the state exactly when the squares are not
    disabled and the clicked cell is empty, and then it writes the
    marker of the side to move there and passes the turn. *)
Theorem click_acts_iff_enabled_and_empty (i : nat) (st : appState) :
  (handleSquareClick i st <> st <->
   squareDisabled st = false /\ truthy (cellAt (squares st) i) = false)
  /\ (squareDisabled st = false -> truthy (cellAt (squares st) i) = false ->
      handleSquareClick i st
      = {| mode := mode st;
           squares := setCell (squares st) i
                        (Some (if xIsNext st then PlayerX else PlayerO));
           xIsNext := negb (xIsNext st) |}).
Proof.
  assert (Hact : squareDisabled st = false ->
                 truthy (cellAt (squares st) i) = false ->
                 handleSquareClick i st
                 = {| mode := mode st;
                      squares := setCell (squares st) i
                                   (Some (if xIsNext st then PlayerX else PlayerO));
                      xIsNext := negb (xIsNext st) |}).
  { intros Hd Ht. apply squareDisabled_false in Hd as [Hlive Hai].
    unfold handleSquareClick. rewrite Hlive, Ht, Hai. reflexivity. }
  split; [|exact Hact]. split.
  - intros Hne.
    destruct (squareDisabled st) eqn:Hd.
    + exfalso. apply Hne. unfold handleSquareClick.
      destruct (gameOver (squares st)) eqn:Hlive; [reflexivity|].
      destruct (truthy (cellAt (squares st) i)); [reflexivity|].
      destruct (isAiMode (mode st) && negb (xIsNext st)) eqn:Hai; [reflexivity|].
      assert (squareDisabled st = false)
        by (apply squareDisabled_false; auto). congruence.
    + split; [reflexivity|].
      destruct (truthy (cellAt (squares st) i)) eqn:Ht; [|reflexivity].
      exfalso. apply Hne. unfold handleSquareClick. rewrite Ht.
      destruct (gameOver (squares st)); reflexivity.
  - intros [Hd Ht]. rewrite (Hact Hd Ht). destruct st as [m b x]. simpl.
    intros [= _ Hx]. destruct x; discriminate.
Qed.

Lemma click_acts_iff_enabled_and_empty_witness :
  let st := startMode Pvp initialState in
  squareDisabled st = false
  /\ handleSquareClick 4 st
     = {| mode := Some Pvp;
          squares := setCell emptyBoard 4 (Some PlayerX);
          xIsNext := false |}.
Proof.
  intros st. split; [reflexivity|].
  apply (proj2 (click_acts_iff_enabled_and_empty 4 st)); reflexivity.
Defined.

(** X10. A finished game is frozen: once there is a winner or a draw, no
    sequence of clicks and AI moves changes the state; only a reset or a
    mode button does. *)
Theorem finished_game_is_frozen (st : appState) (evs : list event) :
  gameOver (squares st) = true ->
  forallb isMove evs = true ->
  fold_left step evs st = st.
Proof.
  intros Hover. induction evs as [|ev evs IH]; [reflexivity|].
  simpl. intros H. apply andb_true_iff in H as [Hev Hevs].
  assert (Hstep : step st ev = st).
  { destruct ev as [m|t|i|random]; try discriminate; simpl.
    - unfold handleSquareClick. rewrite Hover. reflexivity.
    - unfold aiEffect. rewrite Hover.
      destruct (negb (isAiMode (mode st))); reflexivity. }
  rewrite Hstep. apply IH, Hevs.
Qed.

Lemma finished_game_is_frozen_witness :
  let st := {| mode := Some Ai; squares := boardWonByX; xIsNext := false |} in
  gameOver (squares st) = true
  /\ fold_left step [AiMove 0; Click 5; Click 8; AiMove 2] st = st.
Proof.
  intros st. split; [reflexivity|].
  apply (finished_game_is_frozen st); reflexivity.
Defined.

(** X11. The AI never stalls: in every reachable state in AI mode where
    O is to move and the game is not over, the effect writes O on an
    empty cell and passes the turn to X.  The board is never empty
    there, so the move is the one the search returns, whatever the draw
    of the random source. *)
Theorem ai_always_moves (st : appState) (random : Q) :
  reachable st ->
  mode st = Some Ai -> xIsNext st = false -> gameOver (squares st) = false ->
  exists i,
    squares st !! i = Some None
    /\ (forall random', pickBestAiMove random' (squares st) = Some (MoveIndex i))
    /\ minimax (squares st) true 0
       = Some {| score := Num (scoreZ (minimax (squares st) true 0));
                 index := Some i |}
    /\ aiEffect random st
       = {| mode := Some Ai;
            squares := <[i := Some PlayerO]> (squares st);
            xIsNext := true |}.
Proof.
  intros Hr Hm Hx Hlive.
  apply reachable_keeps in Hr as (Hlen & Halt & _).
  assert (N9 : length (availableMoves (squares st)) <> 9).
  { unfold alternates in Halt. rewrite Hx in Halt.
    pose proof (marker_not_all_available PlayerX (squares st)). lia. }
  pose proof Hlive as Hlive'. apply gameOver_false in Hlive' as [Hw Hf].
  destruct (minimax_inner (squares st) true 0 Hw Hf) as (i & Hi & Hbest).
  apply firstBest_elem in Hbest.
  pose proof (proj1 (elem_of_availableMoves _ _) Hbest) as Hcell.
  assert (Hpick : forall random', pickBestAiMove random' (squares st) = Some (MoveIndex i)).
  { intros random'. rewrite pickBestAiMove_search;
      [rewrite Hi; reflexivity | apply availableMoves_nonempty, Hf | exact N9]. }
  exists i. split; [exact Hcell|]. split; [exact Hpick|]. split.
  - rewrite Hi. reflexivity.
  - unfold aiEffect, aiTurn. rewrite Hm, Hlive, Hx, Hpick. simpl.
    rewrite (cellAt_lookup _ _ _ Hcell). simpl.
    rewrite setCell_in_range by (eapply availableMoves_lt, Hbest).
    reflexivity.
Qed.

Lemma ai_always_moves_witness :
  let st := handleSquareClick 4 (startMode Ai initialState) in
  reachable st /\ mode st = Some Ai /\ xIsNext st = false
  /\ gameOver (squares st) = false
  /\ exists i, squares st !! i = Some None
               /\ aiEffect 0 st
                  = {| mode := Some Ai;
                       squares := <[i := Some PlayerO]> (squares st);
                       xIsNext := true |}.
Proof.
  intros st.
  assert (Hr : reachable st).
  { apply reachable_click; [apply reachable_start, reachable_initial|].
    simpl. lia. }
  split; [exact Hr|]. split; [reflexivity|]. split; [reflexivity|].
  split; [reflexivity|].
  destruct (ai_always_moves st 0 Hr eq_refl eq_refl eq_refl)
    as (i & Hi & _ & _ & Heff).
  exists i. split; assumption.
Defined.

Lemma aiSurvives_step (t : nat) (random : Q) (b : board) (x : bool) :
  winner (getWinnerInfo b) = None -> isBoardFull b = false ->
  aiSurvives (S t) random b x
  = if x
    then forallb
           (fun j => aiSurvives t random (setCell b j (Some PlayerX)) false)
           (availableMoves b)
    else match aiTurn random b with
         | None => false
         | Some b' => aiSurvives t random b' true
         end.
Proof. intros Hw Hf. simpl. rewrite Hw, Hf. reflexivity. Qed.

Lemma aiSurvives_not_lost (t : nat) (random : Q) (b : board) (x : bool) :
  aiSurvives t random b x = true -> winner (getWinnerInfo b) <> Some PlayerX.
Proof.
  intros H Hw. destruct t; simpl in H; rewrite Hw in H; discriminate.
Qed.

Lemma aiTurn_draw_irrelevant (random random' : Q) (b : board) :
  length (availableMoves b) <> 9 -> aiTurn random b = aiTurn random' b.
Proof.
  intros N9. unfold aiTurn.
  rewrite (pickBestAiMove_draw_irrelevant random random' b N9). reflexivity.
Qed.

(** In AI mode every reachable position is one the AI survives from,
    whatever X plays. *)
Lemma reachable_ai_survives (st : appState) :
  reachable st -> mode st = Some Ai ->
  aiSurvives (length (availableMoves (squares st))) 0 (squares st) (xIsNext st)
  = true.
Proof.
  induction 1 as [|st m Hr _|st toMenu Hr _|st i Hr IH Hi|st random Hr IH];
    intros Hm.
  - discriminate.
  - apply (aiSurvives_X_first 0).
  - apply (aiSurvives_X_first 0).
  - revert Hm. unfold handleSquareClick.
    destruct (gameOver (squares st)) eqn:Hlive; [exact IH|].
    destruct (truthy (cellAt (squares st) i)) eqn:Ht; [exact IH|].
    destruct (isAiMode (mode st) && negb (xIsNext st)) eqn:Hai; [exact IH|].
    simpl. intros Hm. specialize (IH Hm).
    rewrite Hm in Hai. simpl in Hai.
    destruct (xIsNext st) eqn:Hx; [|discriminate]. simpl.
    apply gameOver_false in Hlive as [Hw Hf].
    assert (Hin : i ∈ availableMoves (squares st))
      by (apply elem_of_availableMoves, falsy_in_range; assumption).
    rewrite <- (availableMoves_setCell_length _ i PlayerX Hin) in IH.
    rewrite (aiSurvives_step _ _ _ _ Hw Hf) in IH.
    rewrite forallb_forall in IH. apply IH, list_elem_of_In, Hin.
  - revert Hm. unfold aiEffect.
    destruct (negb (isAiMode (mode st))); [exact IH|].
    destruct (gameOver (squares st)) eqn:Hlive; [exact IH|].
    destruct (xIsNext st) eqn:Hx; [rewrite Hx; exact IH|].
    destruct (reachable_keeps st Hr) as (Hlen & Halt & _).
    assert (N9 : length (availableMoves (squares st)) <> 9).
    { unfold alternates in Halt. rewrite Hx in Halt.
      pose proof (marker_not_all_available PlayerX (squares st)). lia. }
    destruct (aiTurn_live random (squares st) Hlen Hlive (or_introl N9))
      as (i & Hi & Hturn).
    rewrite Hturn. simpl. intros Hm. specialize (IH Hm).
    apply gameOver_false in Hlive as [Hw Hf].
    rewrite <- (availableMoves_setCell_length _ i PlayerO Hi) in IH.
    rewrite (aiSurvives_step _ _ _ _ Hw Hf) in IH.
    rewrite (aiTurn_draw_irrelevant 0 random _ N9), Hturn in IH. exact IH.
Qed.

(** X12. In AI mode the human never wins: in no state the component can
    reach with the mode set to AI does X have a completed line,
    whatever squares are clicked. *)
Theorem ai_mode_X_never_wins (st : appState) :
  reachable st -> mode st = Some Ai ->
  winner (getWinnerInfo (squares st)) <> Some PlayerX
  /\ forall l, l ∈ WIN_LINES -> ~ completes (squares st) l PlayerX.
Proof.
  intros Hr Hm.
  pose proof (aiSurvives_not_lost _ _ _ _ (reachable_ai_survives st Hr Hm)) as Hw.
  split; [exact Hw|]. intros l Hl Hc. apply Hw.
  destruct (reachable_keeps st Hr) as (_ & _ & Hsw).
  destruct (winner (getWinnerInfo (squares st))) as [w|] eqn:E.
  - apply winner_Some_completes in E as (l0 & Hl0 & Hc0).
    f_equal. exact (Hsw l0 l w PlayerX Hl0 Hl Hc0 Hc).
  - destruct (proj1 (getWinnerInfo_None (squares st)) E l PlayerX Hl Hc).
Qed.

Lemma ai_mode_X_never_wins_witness :
  let st :=
    fold_left step [StartMode Ai; Click 8] initialState in
  reachable st /\ mode st = Some Ai
  /\ winner (getWinnerInfo (squares st)) <> Some PlayerX.
Proof.
  intros st.
  assert (Hr : reachable st).
  { apply reachable_steps; [apply reachable_initial|].
    repeat constructor; lia. }
  assert (Hm : mode st = Some Ai) by reflexivity.
  split; [exact Hr|]. split; [exact Hm|].
  apply (ai_mode_X_never_wins st Hr Hm).
Defined.

(** X13. The status line tells the phase of the game: it announces a
    winner exactly when [getWinnerInfo] reports that winner, a draw
    exactly when [isDraw] holds, and that the AI is thinking exactly when
    the AI's effect is due (AI mode, O to move, game not over). *)
Theorem status_tells_phase (st : appState) :
  (forall p, status st = (markerString p ++ " wins!")%string <->
             winner (getWinnerInfo (squares st)) = Some p)
  /\ (status st = "Draw!"%string <-> isDraw (squares st) = true)
  /\ (status st = "AI thinking..."%string <->
      isAiMode (mode st) = true /\ xIsNext st = false
      /\ gameOver (squares st) = false).
Proof.
  unfold status, gameOver, isDraw.
  destruct (winner (getWinnerInfo (squares st))) as [w|] eqn:Hw; simpl.
  - split; [|split].
    + intros p. destruct w, p; simpl; split; intros H;
        first [reflexivity | discriminate].
    + destruct w; simpl; split; discriminate.
    + destruct w; simpl; split; [discriminate | intros (_ & _ & H); discriminate
                                | discriminate | intros (_ & _ & H); discriminate].
  - destruct (isBoardFull (squares st)); simpl.
    + split; [|split].
      * intros p. destruct p; simpl; split; discriminate.
      * tauto.
      * split; [discriminate | intros (_ & _ & H); discriminate].
    + split; [|split].
      * intros p. destruct p, (xIsNext st), (isAiMode (mode st)); simpl;
          split; discriminate.
      * destruct (xIsNext st), (isAiMode (mode st)); simpl; split; discriminate.
      * destruct (xIsNext st), (isAiMode (mode st)); simpl; split;
          try discriminate; try tauto;
          intros (H1 & H2 & _); discriminate.
Qed.


(** X14. The highlighted squares are the winner's: a square is marked
    [isWinning] only if it holds the marker of the reported winner, and
    exactly three squares are marked when there is a winner, none
    otherwise. *)
Theorem winning_squares_hold_winner (b : board) :
  (forall i, isWinning b i = true ->
     exists p, winner (getWinnerInfo b) = Some p /\ b !! i = Some (Some p))
  /\ size (winningSet b)
     = (if truthy (winner (getWinnerInfo b)) then 3 else 0).
Proof.
  unfold isWinning, winningSet.
  destruct (line (getWinnerInfo b)) as [[[a1 a2] a3]|] eqn:Hl.
  - destruct (reported_line b _ Hl) as (Hin & p & Hw & H1 & H2 & H3).
    simpl in H1, H2, H3. rewrite Hw. cbn [truthy]. split.
    + intros i Hi. apply bool_decide_eq_true in Hi.
      exists p. split; [reflexivity|].
      rewrite elem_of_list_to_set, !elem_of_cons, elem_of_nil in Hi.
      destruct Hi as [-> | [-> | [-> | []]]]; assumption.
    + unfold WIN_LINES in Hin.
      repeat (apply elem_of_cons in Hin as [[= -> -> ->]|Hin];
              [vm_compute; reflexivity|]).
      inversion Hin.
  - rewrite (no_line_no_winner b Hl). cbn [truthy]. split.
    + intros i Hi. apply bool_decide_eq_true in Hi.
      apply not_elem_of_empty in Hi. destruct Hi.
    + rewrite size_empty. reflexivity.
Qed.

Lemma winning_squares_hold_winner_witness :
  isWinning boardWonByX 1 = true
  /\ exists p, winner (getWinnerInfo boardWonByX) = Some p
               /\ boardWonByX !! 1 = Some (Some p).
Proof.
  assert (H : isWinning boardWonByX 1 = true) by (vm_compute; reflexivity).
  split; [exact H|].
  apply (proj1 (winning_squares_hold_winner boardWonByX) 1 H).
Defined.

(** X15. The overlay line of a finished game: its end points are the
    centers of the first and the last cell of the reported line, they lie
    inside the 3 by 3 view box, and the center of the middle cell is
    their midpoint, so the stroke passes through the centers of all
    three winning squares.  Without a reported line there are no end
    points. *)
Theorem overlay_line_through_centers (b : board) :
  (line (getWinnerInfo b) = None ->
   getLineEndpoints (line (getWinnerInfo b)) = None)
  /\ (forall a m c, line (getWinnerInfo b) = Some (a, m, c) ->
      exists e,
        getLineEndpoints (line (getWinnerInfo b)) = Some e
        /\ x1 e = px (indexToCenter a) /\ y1 e = py (indexToCenter a)
        /\ x2 e = px (indexToCenter c) /\ y2 e = py (indexToCenter c)
        /\ (0 < x1 e < 3 /\ 0 < y1 e < 3 /\ 0 < x2 e < 3 /\ 0 < y2 e < 3)%Q
        /\ (px (indexToCenter m) == (x1 e + x2 e) / 2)%Q
        /\ (py (indexToCenter m) == (y1 e + y2 e) / 2)%Q).
Proof.
  split; [intros ->; reflexivity|].
  intros a m c Hl. rewrite Hl. eexists. split; [reflexivity|]. simpl.
  do 4 (split; [reflexivity|]).
  apply reported_line in Hl as [Hin _]. unfold WIN_LINES in Hin.
  repeat (apply elem_of_cons in Hin as [[= -> -> ->]|Hin];
          [vm_compute; repeat split; congruence|]).
  inversion Hin.
Qed.

Lemma overlay_line_through_centers_witness :
  line (getWinnerInfo boardWonByX) = Some (0, 1, 2)
  /\ exists e,
       getLineEndpoints (line (getWinnerInfo boardWonByX)) = Some e
       /\ (px (indexToCenter 1) == (x1 e + x2 e) / 2)%Q.
Proof.
  split; [reflexivity|].
  destruct (proj2 (overlay_line_through_centers boardWonByX) 0 1 2 eq_refl)
    as (e & He & _ & _ & _ & _ & _ & Hmid & _).
  exists e. split; assumption.
Defined.

Lemma full_board_is_over (b : board) :
  availableMoves b = [] -> gameOver b = true.
Proof.
  intros E. apply isBoardFull_availableMoves in E.
  unfold gameOver, isDraw. rewrite E.
  destruct (winner (getWinnerInfo b)); reflexivity.
Qed.

(** X16. In a reachable state a click on one of the 9 squares or a move
    of the AI either leaves the state as it is or fills exactly one empty
    cell with the marker of the side to move (X when [xIsNext], else O),
    passes the turn and keeps the mode; so each move leaves one empty
    cell fewer, and when no empty cell is left the game is over: a game
    has at most 9 moves. *)
Theorem move_fills_one_cell (st : appState) (ev : event) :
  reachable st -> isMove ev = true ->
  (forall i, ev = Click i -> i < 9) ->
  (length (availableMoves (squares st)) = 0 -> gameOver (squares st) = true)
  /\ (step st ev = st
      \/ exists i,
           squares st !! i = Some None
           /\ step st ev
              = {| mode := mode st;
                   squares := <[i := Some (if xIsNext st then PlayerX else PlayerO)]>
                                (squares st);
                   xIsNext := negb (xIsNext st) |}
           /\ S (length (availableMoves (squares (step st ev))))
              = length (availableMoves (squares st))).
Proof.
  intros Hr Hev Hclick.
  split.
  { intros H0. apply full_board_is_over.
    destruct (availableMoves (squares st)); [reflexivity | discriminate]. }
  destruct (reachable_keeps st Hr) as (Hlen & Halt & _).
  assert (Hplace : forall i mk,
            i ∈ availableMoves (squares st) ->
            squares st !! i = Some None
            /\ setCell (squares st) i (Some mk) = <[i := Some mk]> (squares st)
            /\ S (length (availableMoves (setCell (squares st) i (Some mk))))
               = length (availableMoves (squares st))).
  { intros i mk Hi. split; [apply elem_of_availableMoves, Hi|].
    split; [apply setCell_in_range; eapply availableMoves_lt, Hi|].
    apply availableMoves_setCell_length, Hi. }
  destruct ev as [m|t|i|random]; try discriminate; simpl.
  - unfold handleSquareClick.
    destruct (gameOver (squares st)) eqn:Hlive; [left; reflexivity|].
    destruct (truthy (cellAt (squares st) i)) eqn:Ht; [left; reflexivity|].
    destruct (isAiMode (mode st) && negb (xIsNext st)); [left; reflexivity|].
    right. exists i.
    assert (Hi : i ∈ availableMoves (squares st)).
    { apply elem_of_availableMoves, falsy_in_range; [|exact Ht].
      specialize (Hclick i eq_refl). lia. }
    destruct (Hplace i (if xIsNext st then PlayerX else PlayerO) Hi)
      as (Hc & Hset & Hcount).
    split; [exact Hc|]. simpl. rewrite <- Hset. split; [reflexivity | exact Hcount].
  - unfold aiEffect.
    destruct (negb (isAiMode (mode st))); [left; reflexivity|].
    destruct (gameOver (squares st)) eqn:Hlive; [left; reflexivity|].
    destruct (xIsNext st) eqn:Hx; [left; reflexivity|].
    destruct (aiTurn_live random (squares st) Hlen Hlive) as (i & Hi & Hturn).
    { left. unfold alternates in Halt. rewrite Hx in Halt.
      pose proof (marker_not_all_available PlayerX (squares st)). lia. }
    rewrite Hturn. right. exists i.
    destruct (Hplace i PlayerO Hi) as (Hc & Hset & Hcount).
    split; [exact Hc|]. simpl. rewrite <- Hset. split; [reflexivity | exact Hcount].
Qed.

Lemma move_fills_one_cell_witness :
  let st := startMode Pvp initialState in
  reachable st
  /\ (step st (Click 4) = st
      \/ exists i,
           squares st !! i = Some None
           /\ step st (Click 4)
              = {| mode := mode st;
                   squares := <[i := Some (if xIsNext st then PlayerX else PlayerO)]>
                                (squares st);
                   xIsNext := negb (xIsNext st) |}
           /\ S (length (availableMoves (squares (step st (Click 4)))))
              = length (availableMoves (squares st))).
Proof.
  intros st.
  assert (Hr : reachable st) by apply reachable_start, reachable_initial.
  split; [exact Hr|].
  apply (move_fills_one_cell st (Click 4) Hr eq_refl).
  intros i [= <-]. lia.
Defined.

(** ** The cursor trail: one frame and one mouse move *)

Section TrailFacts.

Context {particle time : Type}.
Variable update : particle -> particle.
Variable expired : particle -> bool.
Variable tooSoon : time -> time -> bool.

(** With the loop index at the end of [done], the loop leaves [done] as
    it is and keeps, of the rest, the updated particles that have not
    expired. *)
Lemma animateLoop_from (fuel : nat) :
  forall done rest : list particle,
    length rest <= fuel ->
    animateLoop particle update expired fuel (length done) (done ++ rest)
    = Some (done ++ filter (fun p => expired p = false) (map update rest)).
Proof.
  induction fuel as [|fuel IH]; intros done rest Hfuel.
  - destruct rest; [|simpl in Hfuel; lia].
    simpl. rewrite filter_nil, !app_nil_r, lookup_ge_None_2 by lia. reflexivity.
  - destruct rest as [|p rest].
    + simpl. rewrite filter_nil, !app_nil_r, lookup_ge_None_2 by lia. reflexivity.
    + simpl in Hfuel. cbn [animateLoop].
      rewrite list_lookup_middle by reflexivity.
      rewrite insert_app_r_alt by lia. rewrite Nat.sub_diag. cbn [insert list_insert].
      cbn [map]. rewrite filter_cons.
      destruct (expired (update p)) eqn:Hexp.
      * rewrite delete_middle.
        destruct (decide (true = false)) as [E|_]; [discriminate|].
        apply IH. lia.
      * destruct (decide (false = false)) as [_|N]; [|congruence].
        rewrite (cons_middle (update p) done rest), app_assoc.
        replace (S (length done)) with (length (done ++ [update p]))
          by (rewrite length_app; simpl; lia).
        rewrite IH by lia. rewrite <- app_assoc. reflexivity.
Qed.

(** X17. One frame of [animate] updates every particle exactly once and
    removes exactly those whose life has run out after the update; the
    survivors keep their order, so no expired particle is left and the
    trail does not grow.  Deleting from the array while looping over it
    skips no particle. *)
Theorem animate_updates_and_filters (particles : list particle) :
  exists particles',
    animate particle update expired particles = Some particles'
    /\ particles' = filter (fun p => expired p = false) (map update particles)
    /\ Forall (fun p => expired p = false) particles'
    /\ length particles' <= length particles.
Proof.
  eexists. split; [|split; [reflexivity|split]].
  - unfold animate. apply (animateLoop_from (length particles) [] particles).
    reflexivity.
  - apply Forall_forall. intros p Hp.
    apply list_elem_of_filter in Hp as [Hp _]. exact Hp.
  - etransitivity; [apply length_filter|]. rewrite length_map. reflexivity.
Qed.

(** X18. [onMove] keeps the trail at 350 particles at most, and when it
    spawns it always keeps the two new particles, at the end, dropping
    the oldest ones to make room; a move that comes too soon changes
    nothing. *)
Theorem onMove_caps_trail (now lastSpawn : time) (p1 p2 : particle)
    (particles : list particle) :
  length particles <= 350 ->
  let '(particles', lastSpawn') :=
    onMove particle time tooSoon now p1 p2 (particles, lastSpawn) in
  length particles' <= 350
  /\ (tooSoon now lastSpawn = true ->
      particles' = particles /\ lastSpawn' = lastSpawn)
  /\ (tooSoon now lastSpawn = false ->
      particles' = drop (length particles + 2 - 350) particles ++ [p1; p2]
      /\ lastSpawn' = now).
Proof.
  intros Hlen. unfold onMove.
  destruct (tooSoon now lastSpawn).
  - split; [exact Hlen|]. split; [auto | discriminate].
  - rewrite length_app. simpl length.
    destruct (Nat.ltb_spec 350 (length particles + 2)) as [Hgt|Hle].
    + split; [|split; [discriminate|]].
      * rewrite length_drop, length_app. simpl. lia.
      * intros _. split; [|reflexivity].
        rewrite drop_app_le by lia. reflexivity.
    + split; [|split; [discriminate|]].
      * rewrite length_app. simpl. lia.
      * intros _. split; [|reflexivity].
        replace (length particles + 2 - 350) with 0 by lia. reflexivity.
Qed.

End TrailFacts.

Lemma onMove_caps_trail_witness :
  let ps := replicate 349 tt in
  length ps <= 350
  /\ length (fst (onMove unit nat (fun now last => now - last <? 8)
                    20 tt tt (ps, 0))) <= 350.
Proof.
  intros ps.
  assert (Hlen : length ps <= 350) by (unfold ps; rewrite length_replicate; lia).
  split; [exact Hlen|].
  pose proof (onMove_caps_trail (fun now last : nat => now - last <? 8)
                20 0 tt tt ps Hlen) as H.
  destruct (onMove unit nat (fun now last => now - last <? 8) 20 tt tt (ps, 0))
    as [ps' last']. apply H.
Defined.
